(** * fuel_log: tank-to-tank cycles and their aggregates

    A shallow embedding of [cycles], [stats] and [month] of [fuellog.py].

    Numbers are the program's own: a Python [float] is an IEEE 754 binary64
    value, here a primitive [float]; [x > 0] is [0 <? x], and [sum] adds from
    the left starting at zero.  A row of the log (a [dict] of [read_rows]) is a
    record, and so is a cycle (the [dict] built by [cycles]), whose two rates
    are [None] when they are unavailable. *)

From Stdlib Require Import Ascii String List ZArith Bool Lia Floats Uint63.
From Stdlib Require Import Sorted Permutation.
Import ListNotations.

#[local] Open Scope Z_scope.

(** ** Data model *)

(** [datetime.date]: only [year] and [month] are ever inspected. *)
Record Date := mkDate { year : Z; month_of : Z; day : Z }.

(** A row as [read_rows] returns it ([notes] plays no part in any figure). *)
Record Row := mkRow {
  date : Date;
  odometer_km : float;
  liters : float;
  price_per_liter_sek : float;
  full_fill : bool
}.

(** The dict appended by [cycles], key by key. *)
Record Cycle := mkCycle {
  start_date : Date;
  end_date : Date;
  start_odo : float;
  end_odo : float;
  distance_km : float;
  liters_used : float;
  l_per_100km : option float;
  cost_total_sek : float;
  cost_per_km_sek : option float;
  fills_count : Z
}.

(** ** Float helpers *)

(** [sum(xs)] on floats, as the language defines it: the items are added
    from left to right to an accumulator that starts at the integer [0], which
    the first addition converts to [0.0].  (CPython 3.12 and later carries a
    correction term along, which changes the rounding of the total and not
    the items that are added.) *)
Definition fsum (xs : list float) : float :=
  fold_left PrimFloat.add xs 0%float.

(** [x > 0]. *)
Definition positive (x : float) : bool := (0 <? x)%float.

(** [x["liters"] * x["price_per_liter_sek"]]. *)
Definition row_cost (x : Row) : float :=
  (liters x * price_per_liter_sek x)%float.

(** ** cycles *)

(** The three locals of the loop in [cycles]. *)
Record Loop := mkLoop {
  acc : list Cycle;
  buffer : list Row;
  last_full : option Row
}.

(** Lines 112-136: the cycle closed by the buffer [cycle_rows], whose last
    element is the row [r] just appended, so that [cycle_rows[0]] and
    [cycle_rows[-1]] exist; [r] stands in where [hd] and [last] ask for a
    default. *)
Definition close_cycle (cycle_rows : list Row) (r : Row) : Cycle :=
  let start := hd r cycle_rows in
  let end_ := last cycle_rows r in
  let liters_used := fsum (map liters (tl cycle_rows)) in
  let distance := (odometer_km end_ - odometer_km start)%float in
  let total_cost := fsum (map row_cost (tl cycle_rows)) in
  let available := positive distance && positive liters_used in
  {| start_date := date start;
     end_date := date end_;
     start_odo := odometer_km start;
     end_odo := odometer_km end_;
     distance_km := distance;
     liters_used := liters_used;
     l_per_100km :=
       if available then Some (liters_used / distance * 100)%float else None;
     cost_total_sek := total_cost;
     cost_per_km_sek :=
       if available then Some (total_cost / distance)%float else None;
     fills_count := Z.of_nat (length cycle_rows) - 1 |}.

(** One iteration of [for r in rows]. *)
Definition step (st : Loop) (r : Row) : Loop :=
  let buffer := buffer st ++ [r] in
  if full_fill r then
    match last_full st with
    | None => {| acc := acc st; buffer := [r]; last_full := Some r |}
    | Some _ =>
        {| acc := acc st ++ [close_cycle buffer r];
           buffer := [r];
           last_full := Some r |}
    end
  else {| acc := acc st; buffer := buffer; last_full := last_full st |}.

Definition loop_init : Loop :=
  {| acc := []; buffer := []; last_full := None |}.

Definition cycles (rows : list Row) : list Cycle :=
  acc (fold_left step rows loop_init).

(** ** Printing and exceptions *)

(** What [stats] and [month] print.  A line carries the values its f-string
    formats; how many decimals are shown is left to the terminal. *)
Inductive Line :=
| NeedMoreRows                       (* "Lägg till fler poster för statistik." *)
| NeedTwoFulls                       (* "Behöver minst två FULL-tankningar ..." *)
| NoData                             (* "Ingen data än." *)
| LatestHeader
| LatestSpan (d0 : Date) (odo0 : float) (d1 : Date) (odo1 : float)
| LatestDetail (km l l100 cost cost_km : float) (fills : Z)
| TotalHeader
| TotalLine (km l cost : float)
| AverageLine (l100 cost_km : float)
| MonthHeader (y m : Z)
| MonthTotals (fills : Z) (l cost : float)
| MonthDistance (km : float).

Inductive Exn := TypeError | ZeroDivisionError.

(** A command prints some lines and then either returns or raises. *)
Definition Py (A : Type) : Type := (list Line * (Exn + A))%type.

Definition ret {A} (a : A) : Py A := ([], inr a).
Definition raise {A} (e : Exn) : Py A := ([], inl e).
Definition print (l : Line) : Py unit := ([l], inr tt).

Definition bind {A B} (c : Py A) (k : A -> Py B) : Py B :=
  match c with
  | (out, inl e) => (out, inl e)
  | (out, inr a) => let '(out', r) := k a in (out ++ out', r)
  end.

Notation "x <- c ;; k" := (bind c (fun x => k))
  (at level 61, c at next level, right associativity).
Notation "c ;; k" := (bind c (fun _ => k))
  (at level 61, right associativity).

(** [f"{v:.2f}"]: [None] has no such format and raises [TypeError]. *)
Definition format_f (v : option float) : Py float :=
  match v with
  | Some x => ret x
  | None => raise TypeError
  end.

(** [sum(c[key] for c in v)] where a value may be [None]: adding [None] to a
    number raises [TypeError]. *)
Fixpoint sum_from (s : float) (vs : list (option float)) : Py float :=
  match vs with
  | [] => ret s
  | Some x :: vs' => sum_from (s + x)%float vs'
  | None :: _ => raise TypeError
  end.

Definition pysum (vs : list (option float)) : Py float := sum_from 0%float vs.

(** [len(v)] as the float that [/] converts it to (a list holds fewer than
    2^63 items). *)
Definition float_of_len (n : nat) : float :=
  PrimFloat.of_uint63 (Uint63.of_Z (Z.of_nat n)).

(** [s / len(v)]: true division by the integer zero raises. *)
Definition div_len (s : float) (n : nat) : Py float :=
  match n with
  | O => raise ZeroDivisionError
  | _ => ret (s / float_of_len n)%float
  end.

(** [c["l_per_100km"] is not None]. *)
Definition has_rate (c : Cycle) : bool :=
  match l_per_100km c with
  | Some _ => true
  | None => false
  end.

(** ** stats *)

(** Lines 152-157: the latest cycle. *)
Definition stats_latest (latest : Cycle) : Py unit :=
  print LatestHeader ;;
  print (LatestSpan (start_date latest) (start_odo latest)
                    (end_date latest) (end_odo latest)) ;;
  l100 <- format_f (l_per_100km latest) ;;
  cost_km <- format_f (cost_per_km_sek latest) ;;
  print (LatestDetail (distance_km latest) (liters_used latest) l100
                      (cost_total_sek latest) cost_km (fills_count latest)).

(** Lines 158-167: the figures over all cycles. *)
Definition stats_overall (cs : list Cycle) : Py unit :=
  let v := filter has_rate cs in
  s <- pysum (map l_per_100km v) ;;
  avg_l100 <- div_len s (length v) ;;
  s' <- pysum (map cost_per_km_sek v) ;;
  avg_cost_km <- div_len s' (length v) ;;
  let total_km := fsum (map distance_km v) in
  let total_l := fsum (map liters_used v) in
  let total_cost := fsum (map cost_total_sek v) in
  print TotalHeader ;;
  print (TotalLine total_km total_l total_cost) ;;
  print (AverageLine avg_l100 avg_cost_km).

(** [stats], on the rows [read_rows] returned. *)
Definition stats (rows : list Row) : Py unit :=
  if (length rows <? 2)%nat then print NeedMoreRows
  else
    let cs := cycles rows in
    match cs with
    | [] => print NeedTwoFulls
    | c0 :: _ =>
        let latest := last cs c0 in
        stats_latest latest ;;
        stats_overall cs
    end.

(** ** month *)

(** [d.year == y and d.month == m]. *)
Definition in_month (y m : Z) (d : Date) : bool :=
  (year d =? y) && (month_of d =? m).

(** The accumulators [liters], [cost] and [fills] of the loop in [month]. *)
Record Tally := mkTally { t_liters : float; t_cost : float; t_fills : Z }.

Definition tally_step (y m : Z) (t : Tally) (r : Row) : Tally :=
  if in_month y m (date r) then
    {| t_liters := (t_liters t + liters r)%float;
       t_cost := (t_cost t + row_cost r)%float;
       t_fills := t_fills t + 1 |}
  else t.

Definition tally_init : Tally :=
  {| t_liters := 0%float; t_cost := 0%float; t_fills := 0 |}.

(** [month], on the rows [read_rows] returned and the year and month parsed
    from [args.ym]. *)
Definition month (rows : list Row) (y m : Z) : Py unit :=
  match rows with
  | [] => print NoData
  | _ =>
      let t := fold_left (tally_step y m) rows tally_init in
      print (MonthHeader y m) ;;
      print (MonthTotals (t_fills t) (t_liters t) (t_cost t)) ;;
      let cs := cycles rows in
      let month_km :=
        fsum (map distance_km
                  (filter (fun c => in_month y m (end_date c)) cs)) in
      if positive month_km then print (MonthDistance month_km) else ret tt
  end.

(** ** The logs of the worked examples *)

Definition jan (d : Z) : Date := mkDate 2025 1 d.
Definition feb (d : Z) : Date := mkDate 2025 2 d.

(** A full fill, a top-up, a full fill. *)
Definition log1 : list Row :=
  [ mkRow (jan 1) 1000 40 19.5 true;
    mkRow (jan 15) 1050 5 20 false;
    mkRow (feb 1) 1500 35 19 true ]%float.

(** A single full fill. *)
Definition log2 : list Row := [ mkRow (jan 1) 1000 40 19.5 true ]%float.

(** Two full fills at the same odometer reading. *)
Definition log3 : list Row :=
  [ mkRow (jan 1) 1000 40 19.5 true; mkRow (jan 2) 1000 35 19 true ]%float.

(** Two full fills, the second at a lower odometer reading. *)
Definition log4 : list Row :=
  [ mkRow (jan 1) 1000 40 19.5 true; mkRow (jan 2) 900 35 19 true ]%float.

(** Three full fills and a leading top-up: a short and a long cycle. *)
Definition log5 : list Row :=
  [ mkRow (jan 1) 900 10 20 false;
    mkRow (jan 3) 1000 40 19.5 true;
    mkRow (jan 10) 1100 10 20 true;
    mkRow (jan 20) 1300 5 20 false;
    mkRow (feb 2) 2100 45 19 true ]%float.

(** [log5] and one more full fill at the odometer reading of the last: three
    cycles, the latest without a rate. *)
Definition log6 : list Row :=
  log5 ++ [ mkRow (feb 3) 2100 30 19 true ]%float.

(** Three full fills in one month: two cycles that end in it. *)
Definition log7 : list Row :=
  [ mkRow (jan 3) 1000 40 19.5 true;
    mkRow (jan 10) 1100 10 20 true;
    mkRow (jan 20) 1300 20 20 true ]%float.

(** ** The records between two full fills *)

Definition count_full (rows : list Row) : nat :=
  length (filter full_fill rows).

Definition partials (l : list Row) : Prop :=
  Forall (fun r => full_fill r = false) l.

(** [window rows k s mid e]: [s] is the full fill of [rows] that [k] full
    fills precede, [e] is the next full fill, and [mid] are the partial fills
    between the two. *)
Definition window (rows : list Row) (k : nat) (s : Row) (mid : list Row)
    (e : Row) : Prop :=
  exists pre post,
    rows = pre ++ s :: mid ++ e :: post /\
    count_full pre = k /\
    full_fill s = true /\ partials mid /\ full_fill e = true.

(** ** The loop invariant of [cycles] *)

(** What holds of the loop state once the rows [done] are consumed. *)
Inductive loop_inv (done : list Row) (st : Loop) : Prop :=
| inv_no_full :
    count_full done = 0%nat ->
    last_full st = None ->
    acc st = [] ->
    loop_inv done st
| inv_anchor (pre : list Row) (a : Row) (part : list Row) :
    done = pre ++ a :: part ->
    full_fill a = true ->
    partials part ->
    last_full st = Some a ->
    buffer st = a :: part ->
    length (acc st) = count_full pre ->
    (forall k c, nth_error (acc st) k = Some c ->
       exists s mid e,
         window done k s mid e /\ c = close_cycle (s :: mid ++ [e]) e) ->
    loop_inv done st.

(** ** The cycle of each worked example *)

Definition cycle1 : Cycle :=
  {| start_date := jan 1; end_date := feb 1;
     start_odo := 1000; end_odo := 1500; distance_km := 500;
     liters_used := 40; l_per_100km := Some 8%float;
     cost_total_sek := 765; cost_per_km_sek := Some (765 / 500)%float;
     fills_count := 2 |}.

Definition cycle3 : Cycle :=
  {| start_date := jan 1; end_date := jan 2;
     start_odo := 1000; end_odo := 1000; distance_km := 0;
     liters_used := 35; l_per_100km := None;
     cost_total_sek := 665; cost_per_km_sek := None;
     fills_count := 1 |}.

Definition cycle4 : Cycle :=
  {| start_date := jan 1; end_date := jan 2;
     start_odo := 1000; end_odo := 900; distance_km := (-100);
     liters_used := 35; l_per_100km := None;
     cost_total_sek := 665; cost_per_km_sek := None;
     fills_count := 1 |}.

(** ** What a cycle carries *)

(** What a cycle carries besides its odometer readings and their
    difference. *)
Definition beyond_odometer (c : Cycle) :=
  (start_date c, end_date c, liters_used c, l_per_100km c, cost_total_sek c,
   cost_per_km_sek c, fills_count c).

(** ** The overall figures *)

(** The sum of the statements, apart from the [sum] of the code: every item
    in turn is added to what the items before it came to, from zero. *)
Fixpoint add_from (s : float) (xs : list float) : float :=
  match xs with
  | [] => s
  | x :: xs' => add_from (s + x)%float xs'
  end.

Definition sum_of (xs : list float) : float := add_from 0%float xs.

(** The values of a rate over the cycles in which it is defined. *)
Definition defined (f : Cycle -> option float) (cs : list Cycle) : list float :=
  flat_map (fun c => match f c with Some x => [x] | None => [] end) cs.

Definition is_some {A} (o : option A) : bool :=
  match o with Some _ => true | None => false end.

(** [f] is defined on exactly the cycles that [has_rate] keeps. *)
Definition follows_rate (f : Cycle -> option float) (cs : list Cycle) : Prop :=
  forall c, In c cs -> is_some (f c) = has_rate c.

(** The three lines that close the output of [stats]. *)
Definition overall_lines (cs : list Cycle) : list Line :=
  let v := filter has_rate cs in
  let rates := defined l_per_100km cs in
  let costs := defined cost_per_km_sek cs in
  [ TotalHeader;
    TotalLine (fsum (map distance_km v)) (fsum (map liters_used v))
              (fsum (map cost_total_sek v));
    AverageLine (fsum rates / float_of_len (length rates))%float
                (fsum costs / float_of_len (length costs))%float ].

(** ** The rows and cycles of a month *)

(** The rows of the log dated in the month. *)
Definition rows_in (y m : Z) (rows : list Row) : list Row :=
  filter (fun r => in_month y m (date r)) rows.

(** The cycles that end in the month. *)
Definition cycles_ending_in (y m : Z) (cs : list Cycle) : list Cycle :=
  filter (fun c => in_month y m (end_date c)) cs.

(** What of a row the monthly totals read: neither the odometer nor the
    full-fill mark. *)
Definition purchase (r : Row) : Date * float * float :=
  (date r, liters r, price_per_liter_sek r).

(** ** The loop, seen from outside *)

(** The loop state with the cycles found so far set aside. *)
Definition forget_acc (st : Loop) : Loop :=
  {| acc := []; buffer := buffer st; last_full := last_full st |}.

(** The fills counted by a list of cycles. *)
Definition total_fills (cs : list Cycle) : Z :=
  fold_left Z.add (map fills_count cs) 0.

(** ** show_last_cycle_consumption *)

(** What [show_last_cycle_consumption] prints. *)
Inductive Notice :=
| NewCycleHeader                     (* "Ny cykel beräknad:" *)
| NewCycleLine (d0 d1 : Date) (l100 km l cost_km : float).

(** [show_last_cycle_consumption], on the rows [read_rows] returned: the
    header is printed before the f-string of the second line is evaluated,
    whose [:.2f] raises [TypeError] on [None]. *)
Definition show_last_cycle_consumption (rows : list Row)
    : list Notice * (Exn + unit) :=
  let cs := cycles rows in
  match cs with
  | [] => ([], inr tt)
  | c0 :: _ =>
      let latest := last cs c0 in
      match l_per_100km latest with
      | None => ([], inr tt)
      | Some l100 =>
          match cost_per_km_sek latest with
          | Some cost_km =>
              ([ NewCycleHeader;
                 NewCycleLine (start_date latest) (end_date latest) l100
                              (distance_km latest) (liters_used latest)
                              cost_km ], inr tt)
          | None => ([NewCycleHeader], inl TypeError)
          end
      end
  end.

(** ** list_entries *)

(** What [list_entries] prints ([notes], printed last, is not kept in a
    [Row]). *)
Inductive Listing :=
| NoEntries                          (* "Ingen data än." *)
| EntryLine (d : Date) (odo l price : float) (full : bool) (total_cost : float).

Definition entry_line (r : Row) : Listing :=
  EntryLine (date r) (odometer_km r) (liters r) (price_per_liter_sek r)
            (full_fill r) (liters r * price_per_liter_sek r)%float.

(** [l[start:]]: a negative [start] counts from the end, and either way the
    index is clipped to the list. *)
Definition slice_from {A} (start : Z) (l : list A) : list A :=
  let n := Z.of_nat (length l) in
  let i := if start <? 0 then Z.max (n + start) 0 else Z.min start n in
  skipn (Z.to_nat i) l.

(** [list_entries], on the rows [read_rows] returned and the integer
    [args.limit]: [limit = args.limit or 20], then [rows[-limit:]]. *)
Definition list_entries (rows : list Row) (limit : Z) : list Listing :=
  match rows with
  | [] => [NoEntries]
  | _ =>
      let limit := if limit =? 0 then 20 else limit in
      map entry_line (slice_from (- limit) rows)
  end.

(** ** Text *)

(** A [str] of ASCII text, one [ascii] per character; characters from 128
    on, which Python may strip or change the case of, are not modelled, and
    the laws of text below are stated for [ascii_text]. *)
Definition str : Type := list ascii.

Definition text (s : string) : str := list_ascii_of_string s.

Definition ascii_text (s : str) : Prop :=
  Forall (fun c => (nat_of_ascii c < 128)%nat) s.

(** The ASCII characters that [str.strip()] removes: tab to carriage
    return, the four separators 28 to 31, and the space. *)
Definition is_space (c : ascii) : bool :=
  let n := nat_of_ascii c in
  ((9 <=? n) && (n <=? 13) || (28 <=? n) && (n <=? 32))%nat.

(** [str.lower()] on one ASCII character. *)
Definition lower_char (c : ascii) : ascii :=
  let n := nat_of_ascii c in
  if ((65 <=? n) && (n <=? 90))%nat then ascii_of_nat (n + 32) else c.

Definition lower (s : str) : str := map lower_char s.

Fixpoint lstrip (s : str) : str :=
  match s with
  | c :: s' => if is_space c then lstrip s' else s
  | [] => []
  end.

Definition rstrip (s : str) : str := rev (lstrip (rev s)).

Definition strip (s : str) : str := rstrip (lstrip s).

Definition str_eqb (s t : str) : bool :=
  if list_eq_dec ascii_dec s t then true else false.

(** ** parse_bool *)

Definition truthy : list str :=
  map text ["y"; "yes"; "true"; "1"; "full"; "f"; "ja"]%string.

(** [parse_bool], on [None] or a string. *)
Definition parse_bool (v : option str) : bool :=
  match v with
  | None => false
  | Some s => existsb (str_eqb (lower (strip s))) truthy
  end.

(** The cell that [add_entry] writes for [full]: ["yes" if full else "no"],
    which the csv module writes and reads back as it is. *)
Definition full_cell (full : bool) : str :=
  if full then text "yes" else text "no".

(** The flag that [read_rows] reads from the cell [full_fill]. *)
Definition read_full (cell : str) : bool :=
  str_eqb (lower (strip cell)) (text "yes").

(** ** read_rows *)

(** A cell of a row as [csv.DictReader] yields it: [r[key]] raises
    [KeyError] where the header of the file has no such column, and is [None]
    where the line is too short to reach the column. *)
Inductive Cell :=
| NoColumn
| NoneCell
| StrCell (s : str).

Record RawRow := mkRaw {
  r_date : Cell;
  r_odometer_km : Cell;
  r_liters : Cell;
  r_price_per_liter_sek : Cell;
  r_full_fill : Cell
}.

(** What escapes [read_rows]. *)
Module Read.
Inductive Error := KeyError | TypeError | ValueError | AttributeError.
End Read.

(** [a == b] and [a < b] on [datetime.date]. *)
Definition date_eqb (a b : Date) : bool :=
  (year a =? year b) && (month_of a =? month_of b) && (day a =? day b).

Definition date_ltb (a b : Date) : bool :=
  (year a <? year b) ||
  (year a =? year b) &&
    ((month_of a <? month_of b) ||
     (month_of a =? month_of b) && (day a <? day b)).

(** [key(x) < key(y)] for the key [(x["date"], x["odometer_km"])]: tuples
    compare by their first components that differ. *)
Definition key_ltb (x y : Row) : bool :=
  if date_eqb (date x) (date y) then (odometer_km x <? odometer_km y)%float
  else date_ltb (date x) (date y).

(** [rows.sort(key=...)]: the sort of Python is stable, and so is this
    insertion of each row behind the rows that are not above it; the two
    agree as long as no odometer reading is a NaN, which has no place in the
    order. *)
Fixpoint insert (x : Row) (sorted : list Row) : list Row :=
  match sorted with
  | [] => [x]
  | y :: sorted' =>
      if key_ltb x y then x :: sorted else y :: insert x sorted'
  end.

Definition sort_rows (rows : list Row) : list Row :=
  fold_left (fun sorted x => insert x sorted) rows [].

Section ReadRows.

(** [datetime.strptime(s, "%Y-%m-%d").date()] and [float(s)] on a string,
    [None] where they raise [ValueError]. *)
Variable strptime : str -> option Date.
Variable float_of_str : str -> option float.

(** The [try] of lines 75-78: the date, or [None] where the lookup or
    [strptime] raises, on a column or a cell that is missing or on a text
    that is no date; [except Exception] takes them all. *)
Definition read_date (c : Cell) : option Date :=
  match c with
  | StrCell s => strptime s
  | NoneCell | NoColumn => None
  end.

(** [float(r[key])]. *)
Definition read_float (c : Cell) : Read.Error + float :=
  match c with
  | NoColumn => inl Read.KeyError
  | NoneCell => inl Read.TypeError
  | StrCell s =>
      match float_of_str s with
      | Some x => inr x
      | None => inl Read.ValueError
      end
  end.

(** [r["full_fill"].strip().lower() == "yes"]: [None] has no [strip]. *)
Definition read_flag (c : Cell) : Read.Error + bool :=
  match c with
  | NoColumn => inl Read.KeyError
  | NoneCell => inl Read.AttributeError
  | StrCell s => inr (read_full s)
  end.

(** One turn of the loop: the row to append, nothing for a row that
    [continue] skips, or the error that ends the loop. *)
Definition read_row (r : RawRow) : Read.Error + option Row :=
  match read_date (r_date r) with
  | None => inr None
  | Some d =>
      match read_float (r_odometer_km r) with
      | inl e => inl e
      | inr odo =>
          match read_float (r_liters r) with
          | inl e => inl e
          | inr l =>
              match read_float (r_price_per_liter_sek r) with
              | inl e => inl e
              | inr p =>
                  match read_flag (r_full_fill r) with
                  | inl e => inl e
                  | inr full => inr (Some (mkRow d odo l p full))
                  end
              end
          end
      end
  end.

Fixpoint parse_rows (raws : list RawRow) : Read.Error + list Row :=
  match raws with
  | [] => inr []
  | r :: raws' =>
      match read_row r with
      | inl e => inl e
      | inr o =>
          match parse_rows raws' with
          | inl e => inl e
          | inr rows =>
              inr (match o with Some row => row :: rows | None => rows end)
          end
      end
  end.

Definition read_rows (raws : list RawRow) : Read.Error + list Row :=
  match parse_rows raws with
  | inl e => inl e
  | inr rows => inr (sort_rows rows)
  end.

(** The raw rows that [read_rows] keeps: those whose date can be read. *)
Definition dated (raws : list RawRow) : list RawRow :=
  filter (fun r => is_some (read_date (r_date r))) raws.

(** A cell that holds a number. *)
Definition number_cell (c : Cell) : Prop :=
  exists s x, c = StrCell s /\ float_of_str s = Some x.

(** A row with all that [read_rows] reads after the date: three numbers and
    a full-fill cell. *)
Definition complete (r : RawRow) : Prop :=
  number_cell (r_odometer_km r) /\ number_cell (r_liters r) /\
  number_cell (r_price_per_liter_sek r) /\
  exists s, r_full_fill r = StrCell s.

(** The three cells of a row that are read as numbers. *)
Definition number_cells (r : RawRow) : list Cell :=
  [r_odometer_km r; r_liters r; r_price_per_liter_sek r].

End ReadRows.

(** [x == x], which only a NaN fails: the odometer reading of the row is in
    the order of the floats. *)
Definition no_nan (r : Row) : Prop :=
  (odometer_km r =? odometer_km r)%float = true.

(** The rows of a sorted log never step down in their key. *)
Definition key_le (x y : Row) : Prop := key_ltb y x = false.

Definition date_le (a b : Date) : Prop := date_ltb b a = false.

(** ** A sample file *)

(** The two parsers on the cells of the sample file, where they do what
    [strptime] and [float] do; any other text is refused. *)
Definition sample_date (s : str) : option Date :=
  if str_eqb s (text "2025-01-01") then Some (jan 1)
  else if str_eqb s (text "2025-01-02") then Some (jan 2)
  else None.

Definition sample_float (s : str) : option float :=
  if str_eqb s (text "1000") then Some 1000%float
  else if str_eqb s (text "900") then Some 900%float
  else if str_eqb s (text "40") then Some 40%float
  else if str_eqb s (text "19.5") then Some 19.5%float
  else None.

Definition cell (s : string) : Cell := StrCell (text s).

Definition raw_second : RawRow :=
  mkRaw (cell "2025-01-02") (cell "900") (cell "40") (cell "19.5")
        (cell "yes").

Definition raw_first : RawRow :=
  mkRaw (cell "2025-01-01") (cell "1000") (cell "40") (cell "19.5")
        (cell "Yes ").

(** A date in another format, and a number that is none. *)
Definition raw_undated : RawRow :=
  mkRaw (cell "2/1 2025") (cell "x") (cell "40") (cell "19.5") (cell "no").

(** A letter O for a zero. *)
Definition raw_bad_number : RawRow :=
  mkRaw (cell "2025-01-02") (cell "1000") (cell "4O") (cell "19.5")
        (cell "no").

(** A line that ends after the odometer reading. *)
Definition raw_short : RawRow :=
  mkRaw (cell "2025-01-01") (cell "1000") NoneCell NoneCell NoneCell.

(** * Proofs *)

(** ** Facts about float comparison *)

Lemma zero_SF : Prim2SF 0%float = S754_zero false.
Proof. reflexivity. Qed.

(** [x <= 0] excludes [x > 0]. *)
Lemma le_zero_not_positive (x : float) :
  (x <=? 0)%float = true -> positive x = false.
Proof.
  unfold positive. rewrite FloatAxioms.leb_spec, FloatAxioms.ltb_spec, zero_SF.
  destruct (Prim2SF x) as [[]|[]| |[] mx ex]; cbn; congruence.
Qed.

(** [x < 0] excludes [x > 0]. *)
Lemma lt_zero_not_positive (x : float) :
  (x <? 0)%float = true -> positive x = false.
Proof.
  unfold positive. rewrite !FloatAxioms.ltb_spec, zero_SF.
  destruct (Prim2SF x) as [[]|[]| |[] mx ex]; cbn; congruence.
Qed.

(** The guard [distance > 0] keeps [/ distance] away from division by zero. *)
Lemma positive_nonzero (x : float) :
  positive x = true -> (x =? 0)%float = false.
Proof.
  unfold positive. rewrite FloatAxioms.eqb_spec, FloatAxioms.ltb_spec, zero_SF.
  destruct (Prim2SF x) as [[]|[]| |[] mx ex]; cbn; congruence.
Qed.

(** ** Counting full fills *)

Lemma count_full_app (a b : list Row) :
  count_full (a ++ b) = (count_full a + count_full b)%nat.
Proof. unfold count_full. now rewrite filter_app, length_app. Qed.

Lemma count_full_cons (r : Row) (l : list Row) :
  count_full (r :: l) = ((if full_fill r then 1 else 0) + count_full l)%nat.
Proof. unfold count_full. cbn. now destruct (full_fill r). Qed.

Lemma count_full_partials (l : list Row) : partials l -> count_full l = 0%nat.
Proof.
  induction 1 as [|r l Hr _ IH]; [reflexivity|].
  rewrite count_full_cons, Hr, IH. reflexivity.
Qed.

Lemma window_extend rows k s mid e more :
  window rows k s mid e -> window (rows ++ more) k s mid e.
Proof.
  intros (pre & post & -> & Hk & Hs & Hmid & He).
  exists pre, (post ++ more). repeat split; trivial.
  now rewrite <- !app_assoc, <- !app_comm_cons, <- app_assoc.
Qed.

(** A full fill is pinned down by the number of full fills before it. *)
Lemma full_split_unique (p1 p2 q1 q2 : list Row) (x y : Row) :
  p1 ++ x :: q1 = p2 ++ y :: q2 ->
  full_fill x = true -> full_fill y = true ->
  count_full p1 = count_full p2 ->
  p1 = p2 /\ x = y /\ q1 = q2.
Proof.
  revert p2. induction p1 as [|z p1 IH]; intros [|z' p2] E Hx Hy Hc; cbn in E.
  - injection E as -> ->. auto.
  - injection E as -> _. rewrite count_full_cons, Hx in Hc. discriminate.
  - injection E as -> _. rewrite count_full_cons, Hy in Hc. discriminate.
  - injection E as -> E. rewrite !count_full_cons in Hc.
    destruct (IH p2 E Hx Hy) as (-> & -> & ->); [lia|]. auto.
Qed.

(** ** The loop invariant holds *)

Lemma loop_inv_init : loop_inv [] loop_init.
Proof. now apply inv_no_full. Qed.

Lemma loop_inv_step done st r :
  loop_inv done st -> loop_inv (done ++ [r]) (step st r).
Proof.
  intros [Hc Hl Ha | pre a part Hd Hfa Hp Hl Hb Hlen Hw];
    unfold step; destruct (full_fill r) eqn:Hr; rewrite Hl; cbn.
  - apply inv_anchor with (pre := done) (a := r) (part := []); cbn; trivial.
    + constructor.
    + now rewrite Ha, Hc.
    + intros k c. rewrite Ha. now destruct k.
  - apply inv_no_full; trivial.
    rewrite count_full_app, count_full_cons, Hr, Hc. reflexivity.
  - apply inv_anchor with (pre := pre ++ a :: part) (a := r) (part := []);
      cbn; trivial.
    + rewrite Hd. reflexivity.
    + constructor.
    + rewrite length_app, Hlen, count_full_app, count_full_cons, Hfa.
      rewrite (count_full_partials part Hp). cbn. lia.
    + intros k c Hk. rewrite Hb in Hk.
      destruct (Nat.lt_ge_cases k (length (acc st))) as [Hlt | Hge].
      * rewrite nth_error_app1 in Hk by trivial.
        destruct (Hw k c Hk) as (s & mid & e & Hwin & ->).
        exists s, mid, e. split; [now apply window_extend | reflexivity].
      * rewrite nth_error_app2 in Hk by trivial.
        destruct (k - length (acc st))%nat as [|[|j]] eqn:Hj;
          cbn in Hk; try discriminate.
        injection Hk as <-. exists a, part, r. split; [|reflexivity].
        exists pre, []. repeat split; trivial.
        -- rewrite Hd, <- app_assoc. reflexivity.
        -- lia.
  - apply inv_anchor with (pre := pre) (a := a) (part := part ++ [r]);
      trivial.
    + rewrite Hd, <- app_assoc. reflexivity.
    + apply Forall_app. split; [trivial | now constructor].
    + cbn. now rewrite Hb.
    + intros k c Hk. destruct (Hw k c Hk) as (s & mid & e & Hwin & ->).
      exists s, mid, e. split; [now apply window_extend | reflexivity].
Qed.

Lemma loop_inv_fold rows : forall done st,
  loop_inv done st -> loop_inv (done ++ rows) (fold_left step rows st).
Proof.
  induction rows as [|r rows IH]; intros done st H; cbn.
  - now rewrite app_nil_r.
  - replace (done ++ r :: rows) with ((done ++ [r]) ++ rows)
      by now rewrite <- app_assoc.
    apply IH, loop_inv_step, H.
Qed.

Lemma cycles_inv (rows : list Row) :
  loop_inv rows (fold_left step rows loop_init).
Proof. apply (loop_inv_fold rows [] loop_init), loop_inv_init. Qed.

(** Every cycle is closed by a window of the log, the [k]-th cycle by the
    window that [k] full fills precede. *)
Lemma cycles_window rows k c :
  nth_error (cycles rows) k = Some c ->
  exists s mid e,
    window rows k s mid e /\ c = close_cycle (s :: mid ++ [e]) e.
Proof.
  unfold cycles. intros Hk.
  destruct (cycles_inv rows) as [_ _ Ha | pre a part _ _ _ _ _ _ Hw].
  - rewrite Ha in Hk. now destruct k.
  - now apply Hw.
Qed.

Lemma cycles_length rows :
  length (cycles rows) = (count_full rows - 1)%nat.
Proof.
  unfold cycles.
  destruct (cycles_inv rows) as [Hc _ Ha | pre a part Hd Hfa Hp _ _ Hlen _].
  - now rewrite Ha, Hc.
  - rewrite Hlen, Hd, count_full_app, count_full_cons, Hfa.
    rewrite (count_full_partials part Hp). lia.
Qed.

(** A window is pinned down by the number of full fills before it. *)
Lemma window_unique rows k s mid e s' mid' e' :
  window rows k s mid e -> window rows k s' mid' e' ->
  s' = s /\ mid' = mid /\ e' = e.
Proof.
  intros (pre & post & E & Hk & Hs & Hmid & He)
         (pre' & post' & E' & Hk' & Hs' & Hmid' & He').
  rewrite E in E'. apply full_split_unique in E'; trivial; [|congruence].
  destruct E' as (_ & <- & E'). apply full_split_unique in E'; trivial.
  - destruct E' as (<- & <- & _). auto.
  - now rewrite !count_full_partials.
Qed.

(** Conversely every window of the log closes a cycle: if [k] full fills
    precede the full fill [s], [e] is the next full fill and [mid] are the
    partial fills between them, the [k]-th cycle is the one closed by the
    buffer [s :: mid ++ [e]].  No stretch between two full fills is left
    out. *)
Lemma window_cycle rows k s mid e :
  window rows k s mid e ->
  nth_error (cycles rows) k = Some (close_cycle (s :: mid ++ [e]) e).
Proof.
  intros Hw. assert (Hlt : (k < length (cycles rows))%nat).
  { rewrite cycles_length. destruct Hw as (pre & post & -> & Hk & Hs & _ & He).
    rewrite count_full_app, count_full_cons, Hs, count_full_app.
    rewrite count_full_cons, He. lia. }
  destruct (nth_error (cycles rows) k) as [c|] eqn:Hk.
  - destruct (cycles_window rows k c Hk) as (s' & mid' & e' & Hw' & ->).
    destruct (window_unique _ _ _ _ _ _ _ _ Hw Hw') as (-> & -> & ->).
    reflexivity.
  - apply nth_error_None in Hk. lia.
Qed.

Lemma In_cycles_window rows c :
  In c (cycles rows) ->
  exists k s mid e,
    window rows k s mid e /\ c = close_cycle (s :: mid ++ [e]) e.
Proof.
  intros Hin. destruct (In_nth_error _ _ Hin) as [k Hk].
  destruct (cycles_window rows k c Hk) as (s & mid & e & H).
  now exists k, s, mid, e.
Qed.

(** The buffer of a closing step read back: its head, its last row and the
    rows after the head. *)
Lemma last_buffer (s : Row) (mid : list Row) (e : Row) :
  last (s :: mid ++ [e]) e = e.
Proof. now rewrite app_comm_cons, last_last. Qed.

(** The two rates of a closed cycle are available together. *)
Lemma close_cycle_rates cycle_rows r :
  let c := close_cycle cycle_rows r in
  if positive (distance_km c) && positive (liters_used c) then
    l_per_100km c = Some (liters_used c / distance_km c * 100)%float /\
    cost_per_km_sek c = Some (cost_total_sek c / distance_km c)%float
  else l_per_100km c = None /\ cost_per_km_sek c = None.
Proof.
  unfold close_cycle.
  cbn [distance_km liters_used l_per_100km cost_total_sek cost_per_km_sek].
  destruct (positive _ && positive _); split; reflexivity.
Qed.

Lemma cycles_rates rows c :
  In c (cycles rows) ->
  if positive (distance_km c) && positive (liters_used c) then
    l_per_100km c = Some (liters_used c / distance_km c * 100)%float /\
    cost_per_km_sek c = Some (cost_total_sek c / distance_km c)%float
  else l_per_100km c = None /\ cost_per_km_sek c = None.
Proof.
  intros Hin. destruct (In_cycles_window rows c Hin) as (k & s & mid & e & _ & ->).
  apply close_cycle_rates.
Qed.

(** ** The worked examples *)

Example cycles_log1 : cycles log1 = [cycle1].
Proof. reflexivity. Qed.

Example cycles_log2 : cycles log2 = [].
Proof. reflexivity. Qed.

Example cycles_log3 : cycles log3 = [cycle3].
Proof. reflexivity. Qed.

Example cycles_log4 : cycles log4 = [cycle4].
Proof. reflexivity. Qed.

(** ** The number of cycles *)

(** C1: the number of cycles returned by [cycles] is
    max(0, number of full fills - 1); a log with at most one full fill has no
    cycle. *)
Theorem cycles_count (rows : list Row) :
  Z.of_nat (length (cycles rows)) = Z.max 0 (Z.of_nat (count_full rows) - 1) /\
  ((count_full rows <= 1)%nat -> cycles rows = []).
Proof.
  pose proof (cycles_length rows) as Hlen. split.
  - lia.
  - intros Hle. apply length_zero_iff_nil. lia.
Qed.

Lemma cycles_count_witness :
  Z.of_nat (length (cycles log2)) = Z.max 0 (Z.of_nat (count_full log2) - 1) /\
  (count_full log2 <= 1)%nat /\ cycles log2 = [].
Proof.
  destruct (cycles_count log2) as [Hn Hnil].
  split; [exact Hn|]. split; [cbn; lia|]. apply Hnil. cbn. lia.
Defined.

(** ** What a cycle sums *)



(** ** When a rate is available *)

(** C3: a cycle's [l_per_100km] is [liters_used / distance_km * 100] and its
    [cost_per_km_sek] is [cost_total_sek / distance_km] exactly when
    [distance_km > 0] and [liters_used > 0]; otherwise both are [None], which
    is no number at all.  A cycle with [distance_km <= 0] has neither rate. *)
Theorem rates_available_iff (rows : list Row) (c : Cycle) :
  In c (cycles rows) ->
  (if (0 <? distance_km c)%float && (0 <? liters_used c)%float then
     l_per_100km c = Some (liters_used c / distance_km c * 100)%float /\
     cost_per_km_sek c = Some (cost_total_sek c / distance_km c)%float
   else
     (l_per_100km c = None /\ cost_per_km_sek c = None) /\
     (forall x : float,
        l_per_100km c <> Some x /\ cost_per_km_sek c <> Some x)) /\
  ((distance_km c <=? 0)%float = true ->
   l_per_100km c = None /\ cost_per_km_sek c = None).
Proof.
  intros Hin. pose proof (cycles_rates rows c Hin) as H.
  unfold positive in H. split.
  - destruct (_ && _); [exact H|]. destruct H as [H1 H2].
    split; [now split|]. intros x. rewrite H1, H2. split; discriminate.
  - intros Hle. apply le_zero_not_positive in Hle. unfold positive in Hle.
    now rewrite Hle in H.
Qed.

Lemma rates_available_iff_witness :
  In cycle3 (cycles log3) /\
  (distance_km cycle3 <=? 0)%float = true /\
  l_per_100km cycle3 = None /\ cost_per_km_sek cycle3 = None.
Proof.
  assert (Hin : In cycle3 (cycles log3)) by (left; reflexivity).
  split; [exact Hin|]. split; [reflexivity|].
  apply (proj2 (rates_available_iff log3 cycle3 Hin)). reflexivity.
Defined.

(** Where a rate is computed the divisor is not zero: [/] cannot raise
    [ZeroDivisionError] inside [cycles]. *)
Lemma rate_divisor_nonzero (rows : list Row) (c : Cycle) :
  In c (cycles rows) -> has_rate c = true -> (distance_km c =? 0)%float = false.
Proof.
  intros Hin Hr. pose proof (cycles_rates rows c Hin) as H.
  destruct (positive (distance_km c)) eqn:Hd.
  - now apply positive_nonzero.
  - cbn in H. unfold has_rate in Hr. destruct H as [H _].
    rewrite H in Hr. discriminate.
Qed.

(** ** A backwards odometer *)

(** C4, as stated, fails: the cycle of a log whose odometer runs backwards
    and the cycle of a log whose odometer stands still carry the same values
    in every field other than the odometer readings and their difference, so
    no field flags the first apart from the second. *)
Lemma negative_distance_not_flagged :
  cycles log4 = [cycle4] /\ cycles log3 = [cycle3] /\
  (distance_km cycle4 <? 0)%float = true /\
  (distance_km cycle3 <? 0)%float = false /\
  beyond_odometer cycle4 = beyond_odometer cycle3.
Proof. repeat split. Qed.

(** C4, amended: a cycle whose [distance_km] is negative has both rates
    unavailable; the negative [distance_km], the difference of its two
    odometer readings, is all that tells it apart. *)
Theorem negative_distance_unavailable (rows : list Row) (c : Cycle) :
  In c (cycles rows) ->
  (distance_km c <? 0)%float = true ->
  l_per_100km c = None /\ cost_per_km_sek c = None /\
  distance_km c = (end_odo c - start_odo c)%float.
Proof.
  intros Hin Hneg. pose proof (cycles_rates rows c Hin) as H.
  rewrite (lt_zero_not_positive _ Hneg) in H. cbn in H.
  destruct H as [H1 H2]. repeat split; trivial.
  destruct (In_cycles_window rows c Hin) as (k & s & mid & e & _ & ->).
  reflexivity.
Qed.

Lemma negative_distance_unavailable_witness :
  In cycle4 (cycles log4) /\
  (distance_km cycle4 <? 0)%float = true /\
  l_per_100km cycle4 = None /\ cost_per_km_sek cycle4 = None /\
  distance_km cycle4 = (end_odo cycle4 - start_odo cycle4)%float.
Proof.
  assert (Hin : In cycle4 (cycles log4)) by (left; reflexivity).
  split; [exact Hin|]. split; [reflexivity|].
  apply (negative_distance_unavailable log4 cycle4 Hin). reflexivity.
Defined.

(** ** The fills of a cycle *)

(** C9: [fills_count] of the [k]-th cycle is the number of records after the
    starting full fill up to and including the ending one: the partial fills
    between the two full fills, plus one. *)
Theorem fills_count_window (rows : list Row) (k : nat) (c : Cycle) :
  nth_error (cycles rows) k = Some c ->
  exists s mid e,
    window rows k s mid e /\
    fills_count c = Z.of_nat (length (mid ++ [e])) /\
    fills_count c = Z.of_nat (length mid) + 1.
Proof.
  intros Hk. destruct (cycles_window rows k c Hk) as (s & mid & e & Hw & ->).
  exists s, mid, e. split; [exact Hw|].
  unfold close_cycle. cbn [fills_count length].
  rewrite length_app. cbn [length]. lia.
Qed.

Lemma fills_count_window_witness :
  exists s mid e,
    window log1 0 s mid e /\
    fills_count cycle1 = Z.of_nat (length (mid ++ [e])) /\
    fills_count cycle1 = Z.of_nat (length mid) + 1.
Proof. apply (fills_count_window log1 0 cycle1). reflexivity. Defined.

(** ** Cycles chain *)

(** The bounding rows of a closed cycle. *)
Lemma close_cycle_bounds s mid e :
  let c := close_cycle (s :: mid ++ [e]) e in
  start_date c = date s /\ start_odo c = odometer_km s /\
  end_date c = date e /\ end_odo c = odometer_km e.
Proof.
  unfold close_cycle.
  cbn [start_date start_odo end_date end_odo hd].
  rewrite last_buffer. repeat split.
Qed.

(** Two consecutive windows share the full fill between them. *)
Lemma window_next rows k s mid e s' mid' e' :
  window rows k s mid e -> window rows (S k) s' mid' e' ->
  s' = e /\
  exists pre post,
    rows = pre ++ s :: mid ++ e :: mid' ++ e' :: post.
Proof.
  intros (pre & post & E & Hk & Hs & Hmid & He)
         (pre' & post' & E' & Hk' & Hs' & Hmid' & He').
  assert (E2 : (pre ++ s :: mid) ++ e :: post = pre' ++ s' :: mid' ++ e' :: post').
  { rewrite <- E', E, <- app_assoc. reflexivity. }
  apply full_split_unique in E2; trivial.
  - destruct E2 as (_ & <- & Hpost). split; [reflexivity|].
    exists pre, post'. now rewrite E, Hpost.
  - rewrite count_full_app, count_full_cons, Hs, Hk, Hk'.
    rewrite (count_full_partials mid Hmid). lia.
Qed.

(** C10: the start and end of every cycle are full-fill rows of the log, and
    two consecutive cycles meet in one row: the full fill that ends cycle [k]
    is the one that starts cycle [k+1], so the end date and odometer of the
    one are the start date and odometer of the other. *)
Theorem cycles_chain (rows : list Row) (k : nat) (c : Cycle) :
  nth_error (cycles rows) k = Some c ->
  (exists s mid e,
     window rows k s mid e /\
     full_fill s = true /\ full_fill e = true /\
     start_date c = date s /\ start_odo c = odometer_km s /\
     end_date c = date e /\ end_odo c = odometer_km e) /\
  (forall c', nth_error (cycles rows) (S k) = Some c' ->
     end_date c = start_date c' /\ end_odo c = start_odo c' /\
     exists pre s mid e mid' e' post,
       rows = pre ++ s :: mid ++ e :: mid' ++ e' :: post /\
       c = close_cycle (s :: mid ++ [e]) e /\
       c' = close_cycle (e :: mid' ++ [e']) e').
Proof.
  intros Hk. destruct (cycles_window rows k c Hk) as (s & mid & e & Hw & ->).
  destruct (close_cycle_bounds s mid e) as (B1 & B2 & B3 & B4). split.
  - exists s, mid, e. split; [exact Hw|].
    destruct Hw as (pre & post & E & Hc & Hs & Hmid & He).
    repeat split; trivial.
  - intros c' Hk'.
    destruct (cycles_window rows (S k) c' Hk') as (s' & mid' & e' & Hw' & ->).
    destruct (window_next _ _ _ _ _ _ _ _ Hw Hw') as (-> & pre & post & E).
    destruct (close_cycle_bounds e mid' e') as (B1' & B2' & _ & _).
    rewrite B3, B4, B1', B2'. repeat split.
    now exists pre, s, mid, e, mid', e', post.
Qed.

Lemma cycles_chain_witness :
  exists c c',
    nth_error (cycles log5) 0 = Some c /\
    nth_error (cycles log5) 1 = Some c' /\
    end_date c = start_date c' /\ end_odo c = start_odo c'.
Proof.
  eexists _, _. split; [reflexivity|]. split; [reflexivity|].
  destruct (cycles_chain log5 0 _ eq_refl) as [_ H].
  destruct (H _ eq_refl) as (H1 & H2 & _). split; [exact H1 | exact H2].
Defined.

(** ** stats *)

Lemma follows_rate_tail f c cs :
  follows_rate f (c :: cs) -> follows_rate f cs.
Proof. intros H c' Hin. apply H. now right. Qed.

Lemma sum_from_defined f cs : forall s,
  follows_rate f cs ->
  sum_from s (map f (filter has_rate cs)) =
    ret (fold_left PrimFloat.add (defined f cs) s).
Proof.
  induction cs as [|c cs IH]; intros s H; [reflexivity|].
  pose proof (H c (or_introl eq_refl)) as Hc.
  apply follows_rate_tail in H. cbn [filter defined flat_map].
  destruct (has_rate c), (f c) as [x|] eqn:Hf; try discriminate; cbn.
  - rewrite Hf. now apply IH.
  - now apply IH.
Qed.

Lemma length_defined f cs :
  follows_rate f cs ->
  length (defined f cs) = length (filter has_rate cs).
Proof.
  induction cs as [|c cs IH]; intros H; [reflexivity|].
  pose proof (H c (or_introl eq_refl)) as Hc.
  apply follows_rate_tail in H. cbn [filter defined flat_map].
  rewrite length_app, (IH H : length (flat_map _ cs) = _).
  destruct (has_rate c), (f c); try discriminate; reflexivity.
Qed.

Lemma l_per_100km_follows cs : follows_rate l_per_100km cs.
Proof. intros c _. reflexivity. Qed.

Lemma cost_per_km_follows rows : follows_rate cost_per_km_sek (cycles rows).
Proof.
  intros c Hin. pose proof (cycles_rates rows c Hin) as H. unfold has_rate.
  destruct (_ && _), H as [-> ->]; reflexivity.
Qed.

Lemma stats_overall_some cs :
  follows_rate cost_per_km_sek cs ->
  filter has_rate cs <> [] ->
  stats_overall cs = (overall_lines cs, inr tt).
Proof.
  intros Hcost Hv. unfold stats_overall, overall_lines, pysum.
  rewrite (sum_from_defined _ cs _ (l_per_100km_follows cs)).
  rewrite (sum_from_defined _ cs _ Hcost).
  rewrite (length_defined _ cs (l_per_100km_follows cs)).
  rewrite (length_defined _ cs Hcost).
  destruct (filter has_rate cs) as [|c v]; [congruence|]. reflexivity.
Qed.

(** Without a cycle that has a rate, lines 160-161 divide by [len(v) = 0]. *)
Lemma stats_overall_none cs :
  filter has_rate cs = [] ->
  stats_overall cs = ([], inl ZeroDivisionError).
Proof. intros Hv. unfold stats_overall. rewrite Hv. reflexivity. Qed.

Lemma cycles_rows_length rows :
  cycles rows <> [] -> (length rows <? 2)%nat = false.
Proof.
  intros Hne. apply Nat.ltb_ge.
  assert (length (cycles rows) <> 0%nat) as Hl
    by (now rewrite length_zero_iff_nil).
  rewrite cycles_length in Hl.
  pose proof (filter_length_le full_fill rows) as Hle.
  unfold count_full in Hl. lia.
Qed.

(** [stats] up to the latest cycle. *)
Lemma stats_unfold rows front latest :
  cycles rows = front ++ [latest] ->
  stats rows = (stats_latest latest ;; stats_overall (cycles rows)).
Proof.
  intros E. unfold stats. rewrite cycles_rows_length.
  - rewrite E. destruct (front ++ [latest]) as [|c0 cs] eqn:E'.
    + now destruct front.
    + rewrite <- E'. now rewrite last_last.
  - rewrite E. now destruct front.
Qed.

(** If the latest cycle has no rate, formatting it raises [TypeError], past
    the two lines already printed. *)
Lemma stats_latest_without_rate rows front latest :
  cycles rows = front ++ [latest] ->
  has_rate latest = false ->
  stats rows =
    ([LatestHeader;
      LatestSpan (start_date latest) (start_odo latest)
                 (end_date latest) (end_odo latest)], inl TypeError).
Proof.
  intros E Hr. rewrite (stats_unfold rows front latest E).
  unfold stats_latest, has_rate in *.
  destruct (l_per_100km latest); [discriminate|]. reflexivity.
Qed.

(** With a rate in the latest cycle, [stats] prints it and then the overall
    figures. *)
Lemma stats_with_rate rows front latest :
  cycles rows = front ++ [latest] ->
  has_rate latest = true ->
  exists l100 cost_km,
    l_per_100km latest = Some l100 /\ cost_per_km_sek latest = Some cost_km /\
    stats rows =
      ([LatestHeader;
        LatestSpan (start_date latest) (start_odo latest)
                   (end_date latest) (end_odo latest);
        LatestDetail (distance_km latest) (liters_used latest) l100
                     (cost_total_sek latest) cost_km (fills_count latest)]
       ++ overall_lines (cycles rows), inr tt).
Proof.
  intros E Hr. pose proof (cost_per_km_follows rows) as Hcost.
  assert (Hin : In latest (cycles rows)).
  { rewrite E. apply in_or_app. right. now left. }
  rewrite (stats_unfold rows front latest E).
  rewrite stats_overall_some; trivial.
  - pose proof (Hcost latest Hin) as Hc. rewrite Hr in Hc.
    unfold stats_latest, has_rate in *.
    destruct (l_per_100km latest) as [x|]; [|discriminate].
    destruct (cost_per_km_sek latest) as [y|]; [|discriminate].
    exists x, y. repeat split.
  - intros Hv. assert (Hf : In latest (filter has_rate (cycles rows))).
    { apply filter_In. now split. }
    rewrite Hv in Hf. destruct Hf.
Qed.

(** C5, at a log of two full fills with the same odometer reading: no cycle
    has a rate, and [stats] raises [TypeError] while printing the latest
    cycle; the overall figures of lines 158-161, were they reached, would
    raise [ZeroDivisionError]. *)
Theorem stats_raises_without_rate :
  map l_per_100km (cycles log3) = [None] /\
  stats log3 =
    ([LatestHeader; LatestSpan (jan 1) 1000 (jan 2) 1000], inl TypeError) /\
  stats_overall (cycles log3) = ([], inl ZeroDivisionError).
Proof.
  repeat split.
Qed.

(** [sum] adds as the statements do. *)
Lemma fsum_sum_of (xs : list float) : fsum xs = sum_of xs.
Proof.
  unfold fsum, sum_of. generalize 0%float.
  induction xs as [|x xs IH]; intros s; [reflexivity | apply IH].
Qed.



(** On that log [stats] itself stops at its latest cycle, which has no
    rate, before it comes to the overall figures. *)
Example stats_log6_raises : snd (stats log6) = inl TypeError.
Proof. reflexivity. Qed.

(** The mean of the rates is not the pooled rate: in [log5] the two cycles
    run at 10 and 5 l/100 km, mean 7.5, while 60 l over 1100 km is less. *)
Example mean_of_rates_not_pooled :
  defined l_per_100km (cycles log5) = [10; 5]%float /\
  (fsum [10; 5] / float_of_len 2 = 7.5)%float /\
  (60 / 1100 * 100 <? 7.5)%float = true.
Proof. repeat split. Qed.

(** ** month *)

Lemma tally_fold y m rows : forall t,
  fold_left (tally_step y m) rows t =
    {| t_liters := fold_left PrimFloat.add (map liters (rows_in y m rows))
                             (t_liters t);
       t_cost := fold_left PrimFloat.add (map row_cost (rows_in y m rows))
                           (t_cost t);
       t_fills := t_fills t + Z.of_nat (length (rows_in y m rows)) |}.
Proof.
  induction rows as [|r rows IH]; intros t.
  - cbn. destruct t. cbn. f_equal. lia.
  - cbn [fold_left]. rewrite IH. unfold tally_step, rows_in. cbn [filter].
    destruct (in_month y m (date r)); cbn [map fold_left length t_liters t_cost t_fills];
      f_equal; lia.
Qed.

(** The output of [month] on a log that is not empty. *)
Lemma month_lines rows y m :
  rows <> [] ->
  let sel := rows_in y m rows in
  let km := fsum (map distance_km (cycles_ending_in y m (cycles rows))) in
  month rows y m =
    ( MonthHeader y m
      :: MonthTotals (Z.of_nat (length sel)) (fsum (map liters sel))
                     (fsum (map row_cost sel))
      :: (if (0 <? km)%float then [MonthDistance km] else []),
      inr tt ).
Proof.
  intros Hne sel km. destruct rows as [|r rows]; [congruence|].
  unfold month. rewrite tally_fold.
  fold sel. fold (cycles_ending_in y m (cycles (r :: rows))). fold km.
  unfold positive, bind, print, ret. cbn [t_liters t_cost t_fills tally_init].
  destruct (0 <? km)%float; reflexivity.
Qed.

(** Logs with the same purchases have the same rows in a month, as far as
    date, liters and price go. *)
Lemma rows_in_purchase y m rows rows' :
  map purchase rows' = map purchase rows ->
  map purchase (rows_in y m rows') = map purchase (rows_in y m rows).
Proof.
  revert rows'. induction rows as [|r rows IH]; intros [|r' rows'] E;
    try discriminate; [reflexivity|].
  cbn [map] in E.
  assert (Er : purchase r' = purchase r) by congruence.
  assert (Hd : date r' = date r) by (unfold purchase in Er; congruence).
  assert (IH' : map purchase (rows_in y m rows') = map purchase (rows_in y m rows))
    by (apply IH; congruence).
  unfold rows_in in *. cbn [filter].
  rewrite Hd. destruct (in_month y m (date r)); cbn [map]; congruence.
Qed.

Lemma liters_of_purchase l :
  map liters l = map (fun p => snd (fst p)) (map purchase l).
Proof. rewrite map_map. reflexivity. Qed.

Lemma row_cost_of_purchase l :
  map row_cost l =
    map (fun p => (snd (fst p) * snd p)%float) (map purchase l).
Proof. rewrite map_map. reflexivity. Qed.

(** C7: for a log that is not empty and any year and month, [month] reports
    the number of rows dated in that month, full or partial, the sum of their
    liters and the sum of their liters times price.  The figures depend on
    the dates, liters and prices alone: logs that differ only in which fills
    are full, hence in their cycles, report the same. *)
Theorem month_totals (rows : list Row) (y m : Z) :
  rows <> [] ->
  let sel := filter (fun r => (year (date r) =? y) && (month_of (date r) =? m))
                    rows in
  (exists rest,
     month rows y m =
       ( MonthHeader y m
         :: MonthTotals
              (Z.of_nat (length sel)) (fsum (map liters sel))
              (fsum (map (fun r => (liters r * price_per_liter_sek r)%float)
                         sel))
         :: rest,
         inr tt )) /\
  (forall rows' : list Row,
     map purchase rows' = map purchase rows ->
     firstn 2 (fst (month rows' y m)) = firstn 2 (fst (month rows y m))).
Proof.
  intros Hne sel. split.
  - eexists. apply (month_lines rows y m Hne).
  - intros rows' E.
    assert (Hne' : rows' <> []) by (destruct rows', rows; cbn in E; congruence).
    rewrite (month_lines rows y m Hne), (month_lines rows' y m Hne').
    cbn [fst firstn].
    pose proof (rows_in_purchase y m rows rows' E) as Hp.
    rewrite !liters_of_purchase, !row_cost_of_purchase, Hp.
    rewrite <- (length_map purchase (rows_in y m rows')), Hp, length_map.
    reflexivity.
Qed.

Lemma month_totals_witness :
  exists rest,
    month log5 2025 1 =
      (MonthHeader 2025 1 :: MonthTotals 4 65 1280 :: rest, inr tt).
Proof.
  destruct (month_totals log5 2025 1) as [H _]; [discriminate|]. exact H.
Defined.

(** C8: for a log that is not empty and any year and month, the distance
    that [month] estimates is the sum of [distance_km] over the cycles whose
    [end_date] is in that month, whatever the month they began in; the line
    is printed when that sum is positive. *)
Theorem month_distance (rows : list Row) (y m : Z) :
  rows <> [] ->
  let ending :=
    filter (fun c => (year (end_date c) =? y) && (month_of (end_date c) =? m))
           (cycles rows) in
  let month_km := sum_of (map distance_km ending) in
  exists header totals,
    month rows y m =
      ( header :: totals
        :: (if (0 <? month_km)%float then [MonthDistance month_km] else []),
        inr tt ).
Proof.
  intros Hne ending month_km. eexists _, _.
  rewrite (month_lines rows y m Hne). rewrite (fsum_sum_of (map distance_km _)).
  reflexivity.
Qed.

Lemma month_distance_witness :
  map distance_km (cycles log7) = [100; 200]%float /\
  (exists header totals,
     month log7 2025 1 = ([header; totals; MonthDistance 300], inr tt)) /\
  (exists header totals,
     month log5 2025 2 = ([header; totals; MonthDistance 1000], inr tt)).
Proof.
  split; [reflexivity|]. split.
  - destruct (month_distance log7 2025 1) as (h & t & H); [discriminate|].
    exists h, t. exact H.
  - destruct (month_distance log5 2025 2) as (h & t & H); [discriminate|].
    exists h, t. exact H.
Defined.

(** ** What can be raised *)

(** [month] never raises. *)
Lemma month_returns (rows : list Row) (y m : Z) :
  snd (month rows y m) = inr tt.
Proof.
  destruct rows as [|r rows]; [reflexivity|].
  now rewrite month_lines.
Qed.

(** [stats] never reaches the division by [len(v) = 0]: what it raises, if
    anything, is the [TypeError] of the latest cycle. *)
Lemma stats_never_divides_by_zero (rows : list Row) :
  snd (stats rows) <> inl ZeroDivisionError.
Proof.
  destruct (cycles rows) as [|c0 cs] eqn:E.
  - unfold stats. rewrite E. destruct (_ <? _)%nat; discriminate.
  - destruct (exists_last (l := c0 :: cs)) as (front & latest & E');
      [discriminate|].
    rewrite E' in E. destruct (l_per_100km latest) as [x|] eqn:Hr.
    + destruct (stats_with_rate rows front latest E) as (? & ? & _ & _ & ->);
        [unfold has_rate; now rewrite Hr | discriminate].
    + rewrite (stats_latest_without_rate rows front latest E); [discriminate|].
      unfold has_rate. now rewrite Hr.
Qed.

(** ** How [cycles] composes *)

Lemma step_acc st r :
  step st r =
    {| acc := acc st ++ acc (step (forget_acc st) r);
       buffer := buffer (step (forget_acc st) r);
       last_full := last_full (step (forget_acc st) r) |}.
Proof.
  unfold step, forget_acc. cbn.
  destruct (full_fill r), (last_full st); cbn; now rewrite ?app_nil_r.
Qed.

(** The cycles found so far are only ever added to. *)
Lemma fold_acc rows : forall st,
  fold_left step rows st =
    {| acc := acc st ++ acc (fold_left step rows (forget_acc st));
       buffer := buffer (fold_left step rows (forget_acc st));
       last_full := last_full (fold_left step rows (forget_acc st)) |}.
Proof.
  induction rows as [|r rows IH]; intros st.
  - cbn. rewrite app_nil_r. now destruct st.
  - cbn [fold_left]. rewrite (IH (step st r)), (IH (step (forget_acc st) r)).
    rewrite (step_acc st r). cbn [acc buffer last_full forget_acc].
    rewrite app_assoc. reflexivity.
Qed.

(** Partial fills only lengthen the buffer. *)
Lemma fold_partials part : forall st,
  partials part ->
  fold_left step part st =
    {| acc := acc st; buffer := buffer st ++ part; last_full := last_full st |}.
Proof.
  induction part as [|r part IH]; intros st Hp.
  - cbn. rewrite app_nil_r. now destruct st.
  - inversion Hp as [|? ? Hr Hp']; subst. cbn [fold_left].
    rewrite IH by trivial.
    unfold step. rewrite Hr. cbn. now rewrite <- app_assoc.
Qed.

(** Before the first full fill the buffer is never read. *)
Lemma fold_no_anchor rows : forall b b',
  acc (fold_left step rows {| acc := []; buffer := b; last_full := None |}) =
  acc (fold_left step rows {| acc := []; buffer := b'; last_full := None |}).
Proof.
  induction rows as [|r rows IH]; intros b b'; [reflexivity|].
  cbn [fold_left]. unfold step at 2 4. cbn [buffer last_full acc].
  destruct (full_fill r); [reflexivity | apply IH].
Qed.

(** After a full fill the state holds that fill alone. *)
Lemma fold_to_full a f :
  full_fill f = true ->
  forget_acc (fold_left step (a ++ [f]) loop_init) =
    {| acc := []; buffer := [f]; last_full := Some f |}.
Proof.
  intros Hf. rewrite fold_left_app. cbn [fold_left]. unfold step. rewrite Hf.
  now destruct (last_full _).
Qed.

Lemma step_init_full f :
  full_fill f = true ->
  step loop_init f = {| acc := []; buffer := [f]; last_full := Some f |}.
Proof. intros Hf. unfold step. now rewrite Hf. Qed.

Lemma split_at_full a b f :
  full_fill f = true ->
  cycles (a ++ f :: b) = cycles (a ++ [f]) ++ cycles (f :: b).
Proof.
  intros Hf. unfold cycles.
  replace (a ++ f :: b) with ((a ++ [f]) ++ b) by now rewrite <- app_assoc.
  rewrite fold_left_app, fold_acc. cbn [acc]. f_equal.
  rewrite (fold_to_full a f Hf). cbn [fold_left].
  now rewrite (step_init_full f Hf).
Qed.

Lemma ignore_partials lead rows trail :
  partials lead -> partials trail ->
  cycles (lead ++ rows ++ trail) = cycles rows.
Proof.
  intros Hl Ht. unfold cycles. rewrite !fold_left_app.
  rewrite (fold_partials trail _ Ht). cbn [acc].
  rewrite (fold_partials lead _ Hl). cbn [acc buffer last_full loop_init app].
  apply fold_no_anchor.
Qed.

Lemma cycles_one_window f part g :
  full_fill f = true -> partials part -> full_fill g = true ->
  cycles (f :: part ++ [g]) = [close_cycle (f :: part ++ [g]) g].
Proof.
  intros Hf Hp Hg. unfold cycles. cbn [fold_left]. rewrite fold_left_app.
  rewrite (step_init_full f Hf), (fold_partials part _ Hp).
  cbn [fold_left acc buffer last_full app].
  unfold step. rewrite Hg. reflexivity.
Qed.

(** From a full fill on, [cycles] closes the first window and goes on from
    the full fill that closed it. *)
Lemma cycles_unfold f part g b :
  full_fill f = true -> partials part -> full_fill g = true ->
  cycles (f :: part ++ g :: b) =
    close_cycle (f :: part ++ [g]) g :: cycles (g :: b).
Proof.
  intros Hf Hp Hg.
  change (f :: part ++ g :: b) with ((f :: part) ++ g :: b).
  rewrite split_at_full by trivial. cbn [app].
  now rewrite cycles_one_window.
Qed.

Lemma cycles_anchor_only a part :
  full_fill a = true -> partials part -> cycles (a :: part) = [].
Proof.
  intros Ha Hp. apply length_zero_iff_nil. rewrite cycles_length.
  rewrite count_full_cons, Ha, (count_full_partials part Hp). reflexivity.
Qed.

(** Rows appended to a log leave the cycles of the log as they are: the
    cycles of the longer log begin with the cycles of the shorter one. *)
Theorem cycles_prefix (rows more : list Row) :
  exists new, cycles (rows ++ more) = cycles rows ++ new.
Proof.
  unfold cycles. rewrite fold_left_app, fold_acc. cbn [acc]. eauto.
Qed.

(** The cycles of a log cut at a full fill are the cycles up to that fill
    followed by the cycles from that fill on: nothing before a full fill
    reaches a later cycle. *)
Theorem cycles_split_at_full (a b : list Row) (f : Row) :
  full_fill f = true ->
  cycles (a ++ f :: b) = cycles (a ++ [f]) ++ cycles (f :: b).
Proof. apply split_at_full. Qed.

Lemma cycles_split_at_full_witness :
  cycles ([ mkRow (jan 1) 900 10 20 false; mkRow (jan 3) 1000 40 19.5 true ]
          ++ mkRow (jan 10) 1100 10 20 true
          :: [ mkRow (jan 20) 1300 5 20 false;
               mkRow (feb 2) 2100 45 19 true ])%float =
  cycles ([ mkRow (jan 1) 900 10 20 false; mkRow (jan 3) 1000 40 19.5 true ]
          ++ [ mkRow (jan 10) 1100 10 20 true ])%float
  ++ cycles (mkRow (jan 10) 1100 10 20 true
             :: [ mkRow (jan 20) 1300 5 20 false;
                  mkRow (feb 2) 2100 45 19 true ])%float.
Proof. apply cycles_split_at_full. reflexivity. Defined.

(** Partial fills before the first row and after the last row of a log
    change none of its cycles: the fills before the first full fill and the
    fills after the last one are in no cycle. *)
Theorem cycles_ignore_partials (lead rows trail : list Row) :
  partials lead -> partials trail ->
  cycles (lead ++ rows ++ trail) = cycles rows.
Proof. apply ignore_partials. Qed.

Lemma cycles_ignore_partials_witness :
  cycles ([mkRow (jan 1) 900 10 20 false]%float ++ log1
          ++ [mkRow (feb 2) 1600 7 20 false]%float) = cycles log1.
Proof. apply cycles_ignore_partials; repeat constructor. Defined.

(** A full fill appended to a log that holds a full fill [a], followed by
    partial fills only, adds one cycle and changes no other: the cycle from
    [a] to the new fill. *)
Theorem cycles_append_full (pre : list Row) (a : Row) (part : list Row)
    (r : Row) :
  full_fill a = true -> partials part -> full_fill r = true ->
  cycles ((pre ++ a :: part) ++ [r]) =
    cycles (pre ++ a :: part) ++ [close_cycle (a :: part ++ [r]) r].
Proof.
  intros Ha Hp Hr. rewrite <- app_assoc. cbn [app].
  rewrite (split_at_full pre (part ++ [r]) a Ha).
  rewrite (split_at_full pre part a Ha).
  rewrite (cycles_anchor_only a part Ha Hp), app_nil_r.
  now rewrite (cycles_one_window a part r Ha Hp Hr).
Qed.

Lemma cycles_append_full_witness :
  cycles (([] ++ mkRow (jan 1) 1000 40 19.5 true ::
                 [mkRow (jan 15) 1050 5 20 false])
          ++ [mkRow (feb 1) 1500 35 19 true])%float = [cycle1].
Proof.
  rewrite cycles_append_full; [reflexivity | reflexivity | | reflexivity].
  repeat constructor.
Defined.

Lemma total_fills_cons c cs :
  total_fills (c :: cs) = fills_count c + total_fills cs.
Proof.
  unfold total_fills. cbn [map fold_left].
  assert (H : forall l z, fold_left Z.add l z = z + fold_left Z.add l 0).
  { induction l as [|x l IH]; intros z; cbn; [lia|].
    rewrite (IH (z + x)), (IH x). lia. }
  now rewrite H.
Qed.

(** A list is all partial fills or has a first full fill. *)
Lemma first_full (l : list Row) :
  partials l \/
  exists part g rest,
    l = part ++ g :: rest /\ partials part /\ full_fill g = true.
Proof.
  induction l as [|r l [IH | (part & g & rest & -> & Hp & Hg)]].
  - left. constructor.
  - destruct (full_fill r) eqn:Hr.
    + right. exists [], r, l. repeat split; trivial. constructor.
    + left. now constructor.
  - right. destruct (full_fill r) eqn:Hr.
    + exists [], r, (part ++ g :: rest). repeat split; trivial. constructor.
    + exists (r :: part), g, rest. repeat split; trivial. now constructor.
Qed.

Lemma fills_count_close a part e :
  fills_count (close_cycle (a :: part ++ [e]) e) = Z.of_nat (length part) + 1.
Proof.
  unfold close_cycle. cbn [fills_count length].
  rewrite length_app. cbn [length]. lia.
Qed.

Lemma fills_between (n : nat) : forall a body e,
  (length body <= n)%nat ->
  full_fill a = true -> full_fill e = true ->
  total_fills (cycles (a :: body ++ [e])) = Z.of_nat (length body) + 1.
Proof.
  induction n as [|n IH]; intros a body e Hn Ha He;
    destruct (first_full body) as [Hp | (part & g & rest & -> & Hp & Hg)].
  - rewrite (cycles_one_window a body e Ha Hp He), total_fills_cons.
    rewrite fills_count_close. unfold total_fills. cbn [map fold_left]. lia.
  - rewrite length_app in Hn. cbn [length] in Hn. lia.
  - rewrite (cycles_one_window a body e Ha Hp He), total_fills_cons.
    rewrite fills_count_close. unfold total_fills. cbn [map fold_left]. lia.
  - rewrite <- app_assoc. cbn [app].
    rewrite (cycles_unfold a part g (rest ++ [e]) Ha Hp Hg), total_fills_cons.
    rewrite length_app in Hn. cbn [length] in Hn.
    rewrite (IH g rest e) by (trivial; lia).
    rewrite fills_count_close, length_app. cbn [length]. lia.
Qed.

(** No fill is counted twice and none is lost: in a log whose first full
    fill is [a] and whose last full fill is [e], the [fills_count] of the
    cycles add up to the number of rows after [a] up to and including [e]. *)
Theorem fills_conserved (lead : list Row) (a : Row) (body : list Row)
    (e : Row) (trail : list Row) :
  partials lead -> full_fill a = true -> full_fill e = true ->
  partials trail ->
  total_fills (cycles (lead ++ a :: body ++ e :: trail)) =
    Z.of_nat (length body) + 1.
Proof.
  intros Hl Ha He Ht.
  replace (lead ++ a :: body ++ e :: trail)
    with (lead ++ (a :: body ++ [e]) ++ trail)
    by (cbn; now rewrite <- app_assoc).
  rewrite (ignore_partials lead _ trail Hl Ht).
  now apply (fills_between (length body)).
Qed.

Lemma fills_conserved_witness :
  total_fills
    (cycles ([mkRow (jan 1) 900 10 20 false]
             ++ mkRow (jan 3) 1000 40 19.5 true
             :: [ mkRow (jan 10) 1100 10 20 true;
                  mkRow (jan 20) 1300 5 20 false ]
             ++ mkRow (feb 2) 2100 45 19 true :: [])%float) = 3.
Proof. apply fills_conserved; repeat constructor. Defined.

Lemma window_cycle_witness :
  nth_error (cycles log1) 0 = Some cycle1.
Proof.
  apply (window_cycle log1 0 (mkRow (jan 1) 1000 40 19.5 true)
           [mkRow (jan 15) 1050 5 20 false] (mkRow (feb 1) 1500 35 19 true)).
  exists [], []. repeat split. repeat constructor.
Defined.

(** Inside [cycles] no division is by zero: a cycle that has a rate has a
    [distance_km] other than [0.0]. *)
Theorem cycles_never_divide_by_zero (rows : list Row) (c : Cycle) :
  In c (cycles rows) ->
  l_per_100km c <> None \/ cost_per_km_sek c <> None ->
  (distance_km c =? 0)%float = false.
Proof.
  intros Hin Hr. apply (rate_divisor_nonzero rows c Hin).
  pose proof (cost_per_km_follows rows c Hin) as Hc.
  unfold has_rate in *.
  destruct (l_per_100km c), (cost_per_km_sek c), Hr; try reflexivity;
    try discriminate; congruence.
Qed.

Lemma cycles_never_divide_by_zero_witness :
  (distance_km cycle1 =? 0)%float = false.
Proof.
  apply (cycles_never_divide_by_zero log1 cycle1); [now left|].
  left. discriminate.
Defined.

(** ** What [stats] does with a log *)

(** On a log with at most one full fill [stats] prints one line and
    returns: that more rows are needed if the log has fewer than two rows,
    that two full fills are needed otherwise. *)
Theorem stats_without_cycle (rows : list Row) :
  (count_full rows <= 1)%nat ->
  stats rows =
    ([if (length rows <? 2)%nat then NeedMoreRows else NeedTwoFulls], inr tt).
Proof.
  intros Hc. assert (E : cycles rows = []).
  { apply length_zero_iff_nil. rewrite cycles_length. lia. }
  unfold stats. rewrite E. now destruct (_ <? _)%nat.
Qed.

Lemma stats_without_cycle_witness :
  (count_full log2 <= 1)%nat /\ stats log2 = ([NeedMoreRows], inr tt).
Proof.
  split; [cbn; lia|]. apply (stats_without_cycle log2). cbn. lia.
Defined.

Lemma cycles_last_cases rows :
  cycles rows = [] \/ exists front latest, cycles rows = front ++ [latest].
Proof.
  destruct (cycles rows) as [|c0 cs]; [now left | right].
  destruct (exists_last (l := c0 :: cs)) as (front & latest & E);
    [discriminate | eauto].
Qed.



(** ** show_last_cycle_consumption *)

Lemma show_last_unfold rows front latest :
  cycles rows = front ++ [latest] ->
  show_last_cycle_consumption rows =
    match l_per_100km latest, cost_per_km_sek latest with
    | None, _ => ([], inr tt)
    | Some l100, Some cost_km =>
        ([ NewCycleHeader;
           NewCycleLine (start_date latest) (end_date latest) l100
                        (distance_km latest) (liters_used latest) cost_km ],
         inr tt)
    | Some _, None => ([NewCycleHeader], inl TypeError)
    end.
Proof.
  intros E. unfold show_last_cycle_consumption. rewrite E.
  destruct (front ++ [latest]) as [|c0 cs] eqn:E'; [now destruct front|].
  rewrite <- E', last_last. reflexivity.
Qed.



(** The cycle that [show_last_cycle_consumption] announces after an entry is
    the latest cycle of [stats], which on that log returns and shows the same
    dates, distance, liters and rates. *)
Theorem announced_cycle_in_stats (rows : list Row) (d0 d1 : Date)
    (l100 km l cost_km : float) :
  fst (show_last_cycle_consumption rows) =
    [NewCycleHeader; NewCycleLine d0 d1 l100 km l cost_km] ->
  exists odo0 odo1 cost fills rest,
    stats rows =
      ( [ LatestHeader; LatestSpan d0 odo0 d1 odo1;
          LatestDetail km l l100 cost cost_km fills ] ++ rest, inr tt ).
Proof.
  intros H. destruct (cycles_last_cases rows) as [E | (front & latest & E)].
  - unfold show_last_cycle_consumption in H. rewrite E in H. discriminate.
  - rewrite (show_last_unfold rows front latest E) in H.
    destruct (stats_with_rate rows front latest E) as (x & y & Hx & Hy & ->).
    + unfold has_rate.
      destruct (l_per_100km latest); [reflexivity|discriminate].
    + rewrite Hx, Hy in H. cbn in H. injection H as <- <- <- <- <- <-.
      eexists _, _, _, _, _. reflexivity.
Qed.

Lemma announced_cycle_in_stats_witness :
  exists odo0 odo1 cost fills rest,
    stats log1 =
      ( [ LatestHeader; LatestSpan (jan 1) odo0 (feb 1) odo1;
          LatestDetail 500 40 8 cost (765 / 500) fills ] ++ rest, inr tt )%float.
Proof.
  apply (announced_cycle_in_stats log1 (jan 1) (feb 1) 8 500 40 (765 / 500)).
  reflexivity.
Defined.

(** ** A month without fills *)

(** A cycle ends on the date of one of the rows. *)
Lemma end_date_in_rows rows c :
  In c (cycles rows) -> exists e, In e rows /\ end_date c = date e.
Proof.
  intros Hin.
  destruct (In_cycles_window rows c Hin) as (k & s & mid & e & Hw & ->).
  exists e. destruct Hw as (pre & post & -> & _). split.
  - apply in_or_app. right. right. apply in_or_app. right. now left.
  - now destruct (close_cycle_bounds s mid e) as (_ & _ & H & _).
Qed.

(** For a month in which the log has no row, [month] reports no fills, no
    liters, no cost and no distance: a cycle ends on the date of a row. *)
Theorem month_without_fills (rows : list Row) (y m : Z) :
  rows <> [] ->
  (forall r, In r rows -> in_month y m (date r) = false) ->
  month rows y m = ([MonthHeader y m; MonthTotals 0 0 0], inr tt).
Proof.
  intros Hne Hout. rewrite (month_lines rows y m Hne).
  assert (Hsel : rows_in y m rows = []).
  { unfold rows_in. induction rows as [|r rows IH]; [reflexivity|].
    cbn [filter]. rewrite (Hout r (or_introl eq_refl)).
    destruct rows as [|r' rows']; [reflexivity|].
    apply IH; [discriminate|]. intros r0 H0. apply Hout. now right. }
  assert (Hcs : cycles_ending_in y m (cycles rows) = []).
  { unfold cycles_ending_in.
    assert (H : forall c, In c (cycles rows) ->
                          in_month y m (end_date c) = false).
    { intros c Hc. destruct (end_date_in_rows rows c Hc) as (e & He & ->).
      now apply Hout. }
    induction (cycles rows) as [|c cs IH]; [reflexivity|].
    cbn [filter]. rewrite (H c (or_introl eq_refl)).
    apply IH. intros c' Hc'. apply H. now right. }
  rewrite Hsel, Hcs. reflexivity.
Qed.

Lemma month_without_fills_witness :
  month log5 2025 3 = ([MonthHeader 2025 3; MonthTotals 0 0 0], inr tt).
Proof.
  apply (month_without_fills log5 2025 3); [discriminate|].
  intros r Hr. cbn in Hr.
  repeat (destruct Hr as [<- | Hr]; [reflexivity|]). destruct Hr.
Defined.

(** ** list_entries *)

(** With a limit that is not negative [list_entries] shows the last rows of
    the log in their order, as many as the limit allows, where a limit of [0]
    counts as [20]. *)
Theorem list_entries_last (rows : list Row) (limit : Z) :
  rows <> [] -> 0 <= limit ->
  let shown_max := if limit =? 0 then 20 else limit in
  exists older shown,
    rows = older ++ shown /\
    Z.of_nat (length shown) = Z.min shown_max (Z.of_nat (length rows)) /\
    list_entries rows limit = map entry_line shown.
Proof.
  intros Hne Hl shown_max. unfold list_entries.
  destruct rows as [|r rows']; [congruence|]. fold shown_max.
  set (rows := r :: rows') in *.
  assert (Hpos : 0 < shown_max)
    by (unfold shown_max; destruct (Z.eqb_spec limit 0); lia).
  unfold slice_from.
  destruct (Z.ltb_spec (- shown_max) 0) as [_|]; [|lia].
  set (i := Z.to_nat (Z.max (Z.of_nat (length rows) + - shown_max) 0)).
  exists (firstn i rows), (skipn i rows). split; [|split].
  - now rewrite firstn_skipn.
  - rewrite length_skipn. unfold i. lia.
  - reflexivity.
Qed.

Lemma list_entries_last_witness :
  exists older shown,
    log5 = older ++ shown /\
    Z.of_nat (length shown) = Z.min 2 (Z.of_nat (length log5)) /\
    list_entries log5 2 = map entry_line shown.
Proof.
  apply (list_entries_last log5 2); [discriminate | lia].
Defined.

(** With a negative limit [list_entries] leaves out the first [-limit] rows
    and shows all the others, however many they are. *)
Theorem list_entries_negative_limit (rows : list Row) (limit : Z) :
  rows <> [] -> limit < 0 ->
  list_entries rows limit = map entry_line (skipn (Z.to_nat (- limit)) rows) /\
  length (list_entries rows limit) = (length rows - Z.to_nat (- limit))%nat.
Proof.
  intros Hne Hl.
  assert (E : list_entries rows limit =
              map entry_line (skipn (Z.to_nat (- limit)) rows)).
  { unfold list_entries. destruct rows as [|r rows']; [congruence|].
    set (rows := r :: rows') in *.
    destruct (Z.eqb_spec limit 0) as [|_]; [lia|].
    unfold slice_from. destruct (Z.ltb_spec (- limit) 0) as [|_]; [lia|].
    destruct (Z.le_ge_cases (- limit) (Z.of_nat (length rows))) as [Hle | Hge].
    - now rewrite Z.min_l.
    - rewrite Z.min_r by trivial. rewrite Nat2Z.id.
      rewrite !skipn_all2 by lia. reflexivity. }
  split; [exact E|]. now rewrite E, length_map, length_skipn.
Qed.

Lemma list_entries_negative_limit_witness :
  list_entries log5 (-1) = map entry_line (skipn 1 log5) /\
  length (list_entries log5 (-1)) = 4%nat.
Proof.
  apply (list_entries_negative_limit log5 (-1)); [discriminate | lia].
Defined.


(** ** parse_bool and the full-fill cell *)

Lemma lstrip_spaces pad s :
  forallb is_space pad = true -> lstrip (pad ++ s) = lstrip s.
Proof.
  induction pad as [|c pad IH]; intros H; [reflexivity|].
  cbn in H. apply andb_prop in H. destruct H as [Hc Hp].
  cbn. rewrite Hc. now apply IH.
Qed.

Lemma lstrip_app s t :
  lstrip s <> [] -> lstrip (s ++ t) = lstrip s ++ t.
Proof.
  induction s as [|c s IH]; intros H; [now destruct H|].
  cbn in *. destruct (is_space c); [now apply IH | reflexivity].
Qed.

Lemma lstrip_all_spaces s :
  lstrip s = [] -> forallb is_space s = true.
Proof.
  induction s as [|c s IH]; intros H; [reflexivity|].
  cbn in *. destruct (is_space c); [now apply IH | discriminate].
Qed.

Lemma forallb_rev {A} (f : A -> bool) l :
  forallb f (rev l) = forallb f l.
Proof.
  induction l as [|x l IH]; [reflexivity|].
  cbn. rewrite forallb_app, IH. cbn. rewrite andb_true_r. apply andb_comm.
Qed.

Lemma rstrip_spaces s pad :
  forallb is_space pad = true -> rstrip (s ++ pad) = rstrip s.
Proof.
  intros H. unfold rstrip. rewrite rev_app_distr, lstrip_spaces; trivial.
  now rewrite forallb_rev.
Qed.

Lemma strip_padding pad s pad' :
  forallb is_space pad = true -> forallb is_space pad' = true ->
  strip (pad ++ s ++ pad') = strip s.
Proof.
  intros Hp Hp'. unfold strip. rewrite lstrip_spaces by trivial.
  destruct (lstrip s) as [|c r] eqn:E.
  - rewrite lstrip_spaces; [|now apply lstrip_all_spaces].
    replace (lstrip pad') with (@nil ascii); [reflexivity|].
    symmetry. rewrite <- (app_nil_r pad'), lstrip_spaces; trivial.
  - rewrite lstrip_app by (rewrite E; discriminate).
    rewrite E. now apply rstrip_spaces.
Qed.

Lemma is_space_lower c : is_space (lower_char c) = is_space c.
Proof. destruct c as [[] [] [] [] [] [] [] []]; reflexivity. Qed.

Lemma lower_lstrip s : lower (lstrip s) = lstrip (lower s).
Proof.
  induction s as [|c s IH]; [reflexivity|].
  cbn. rewrite is_space_lower. destruct (is_space c); [exact IH | reflexivity].
Qed.

Lemma lower_strip s : lower (strip s) = strip (lower s).
Proof.
  unfold strip, rstrip, lower.
  rewrite map_rev. fold (lower (lstrip (rev (lstrip s)))).
  rewrite lower_lstrip. unfold lower at 1. rewrite map_rev.
  fold (lower (lstrip s)). now rewrite lower_lstrip.
Qed.

(** [parse_bool] looks at neither the case of the letters nor the white
    space around the text. *)
Theorem parse_bool_normalizes (pad s pad' s' : str) :
  ascii_text (pad ++ s ++ pad') -> ascii_text s' ->
  forallb is_space pad = true -> forallb is_space pad' = true ->
  lower s = lower s' ->
  parse_bool (Some (pad ++ s ++ pad')) = parse_bool (Some s').
Proof.
  intros _ _ Hp Hp' E. unfold parse_bool.
  now rewrite strip_padding, !lower_strip, E.
Qed.

Lemma parse_bool_normalizes_witness :
  parse_bool (Some (text "  " ++ text "Yes" ++ text " ")) =
  parse_bool (Some (text "yes")).
Proof.
  apply parse_bool_normalizes; try reflexivity;
    repeat constructor.
Defined.

(** The cell that [add_entry] writes for a fill is read back by [read_rows]
    as the flag that [parse_bool] gave.  [read_rows] is the stricter reader:
    a cell that it reads as a full fill is one that [parse_bool] accepts, and
    not the other way round, [ja] being a full fill for [parse_bool] and a
    partial fill in a file. *)
Theorem full_fill_cell_decoding (v : option str) (cell : str) :
  ascii_text cell ->
  read_full (full_cell (parse_bool v)) = parse_bool v /\
  (read_full cell = true -> parse_bool (Some cell) = true) /\
  parse_bool (Some (text "ja")) = true /\ read_full (text "ja") = false.
Proof.
  intros _. split; [now destruct (parse_bool v)|].
  split; [|split; reflexivity].
  unfold read_full, parse_bool. intros H.
  apply existsb_exists. exists (text "yes"). split; [|exact H].
  right. now left.
Qed.

Lemma full_fill_cell_decoding_witness :
  read_full (full_cell (parse_bool (Some (text "Full")))) = true /\
  parse_bool (Some (text " YES ")) = true.
Proof.
  destruct (full_fill_cell_decoding (Some (text "Full")) (text " YES "))
    as (H1 & H2 & _); [repeat constructor|].
  split; [exact H1 | apply H2; reflexivity].
Defined.

(** ** read_rows *)

Lemma SFltb_asym x y : SFltb x y = true -> SFltb y x = false.
Proof.
  unfold SFltb.
  destruct x as [[]|[]| |[] mx ex], y as [[]|[]| |[] my ey]; cbn;
    try congruence.
  - rewrite (Z.compare_antisym ex ey).
    destruct (ex ?= ey); cbn; try congruence.
    pose proof (Pos.compare_antisym mx my) as A. unfold Pos.compare in A.
    rewrite A. destruct (Pos.compare_cont Eq mx my); cbn; congruence.
  - rewrite (Z.compare_antisym ex ey).
    destruct (ex ?= ey); cbn; try congruence.
    pose proof (Pos.compare_antisym mx my) as A. unfold Pos.compare in A.
    rewrite A. destruct (Pos.compare_cont Eq mx my); cbn; congruence.
Qed.

Lemma float_ltb_asym (a b : float) :
  (a <? b)%float = true -> (b <? a)%float = false.
Proof. rewrite !FloatAxioms.ltb_spec. apply SFltb_asym. Qed.

Lemma date_ltb_spec a b :
  date_ltb a b = true <->
  year a < year b \/
  year a = year b /\
    (month_of a < month_of b \/ month_of a = month_of b /\ day a < day b).
Proof.
  unfold date_ltb.
  rewrite !orb_true_iff, !andb_true_iff, !orb_true_iff, !andb_true_iff.
  rewrite !Z.ltb_lt, !Z.eqb_eq. reflexivity.
Qed.

Lemma date_eqb_spec a b :
  date_eqb a b = true <->
  year a = year b /\ month_of a = month_of b /\ day a = day b.
Proof.
  unfold date_eqb. rewrite !andb_true_iff, !Z.eqb_eq. tauto.
Qed.

Lemma date_le_spec a b :
  date_le a b <->
  year a < year b \/
  year a = year b /\
    (month_of a < month_of b \/ month_of a = month_of b /\ day a <= day b).
Proof.
  unfold date_le. rewrite <- not_true_iff_false, date_ltb_spec. lia.
Qed.

Lemma date_le_trans a b c : date_le a b -> date_le b c -> date_le a c.
Proof. rewrite !date_le_spec. lia. Qed.

Lemma key_ltb_asym x y : key_ltb x y = true -> key_ltb y x = false.
Proof.
  unfold key_ltb.
  destruct (date_eqb (date x) (date y)) eqn:E.
  - assert (E' : date_eqb (date y) (date x) = true).
    { apply date_eqb_spec. apply date_eqb_spec in E. lia. }
    rewrite E'. apply float_ltb_asym.
  - assert (E' : date_eqb (date y) (date x) = false).
    { apply not_true_iff_false. rewrite date_eqb_spec.
      apply not_true_iff_false in E. rewrite date_eqb_spec in E. lia. }
    rewrite E'. intros H. apply not_true_iff_false.
    rewrite date_ltb_spec in *. lia.
Qed.

Lemma key_le_date x y : key_le x y -> date_le (date x) (date y).
Proof.
  unfold key_le, key_ltb, date_le.
  destruct (date_eqb (date y) (date x)) eqn:E; [|trivial].
  intros _. apply date_eqb_spec in E. apply not_true_iff_false.
  rewrite date_ltb_spec. lia.
Qed.

Lemma insert_perm x l : Permutation (x :: l) (insert x l).
Proof.
  induction l as [|y l IH]; [reflexivity|].
  cbn. destruct (key_ltb x y); [reflexivity|].
  rewrite perm_swap. now constructor.
Qed.

Lemma insert_sorted x l : Sorted key_le l -> Sorted key_le (insert x l).
Proof.
  induction l as [|y l IH]; intros Hs; [repeat constructor|].
  cbn. destruct (key_ltb x y) eqn:E.
  - constructor; [exact Hs|]. constructor. now apply key_ltb_asym.
  - apply Sorted_inv in Hs. destruct Hs as [Hs Hh].
    constructor; [now apply IH|].
    destruct l as [|z l]; cbn.
    + constructor. exact E.
    + destruct (key_ltb x z); constructor; [exact E|].
      now inversion Hh.
Qed.

Lemma fold_insert_perm rows : forall sorted,
  Permutation (sorted ++ rows)
              (fold_left (fun s x => insert x s) rows sorted).
Proof.
  induction rows as [|x rows IH]; intros sorted; cbn.
  - now rewrite app_nil_r.
  - rewrite <- IH, <- insert_perm. cbn [app].
    symmetry. apply Permutation_middle.
Qed.

Lemma fold_insert_sorted rows : forall sorted,
  Sorted key_le sorted ->
  Sorted key_le (fold_left (fun s x => insert x s) rows sorted).
Proof.
  induction rows as [|x rows IH]; intros sorted Hs; cbn; [exact Hs|].
  apply IH. now apply insert_sorted.
Qed.

Lemma sort_rows_perm rows : Permutation rows (sort_rows rows).
Proof. apply (fold_insert_perm rows []). Qed.

Lemma sort_rows_sorted rows : Sorted key_le (sort_rows rows).
Proof. apply fold_insert_sorted. constructor. Qed.

Lemma strongly_sorted_dates pre s mid e post :
  StronglySorted date_le (map date (pre ++ s :: mid ++ e :: post)) ->
  date_le (date s) (date e).
Proof.
  induction pre as [|p pre IH]; cbn [app map]; intros Hd;
    apply StronglySorted_inv in Hd; destruct Hd as [Hd Hall].
  - rewrite Forall_forall in Hall. apply Hall.
    rewrite map_app. apply in_or_app. right. now left.
  - now apply IH.
Qed.

(** In a sorted log the dates never step back, however far apart two rows
    are. *)
Lemma sorted_dates rows :
  Sorted key_le rows ->
  forall pre s mid e post,
    rows = pre ++ s :: mid ++ e :: post -> date_le (date s) (date e).
Proof.
  intros Hs.
  assert (Hd : StronglySorted date_le (map date rows)).
  { apply Sorted_StronglySorted; [exact date_le_trans|].
    induction Hs as [|x l Hl IH Hh]; [constructor|].
    cbn. constructor; [exact IH|].
    destruct Hh as [|y l' Hxy]; constructor. now apply key_le_date. }
  intros pre s mid e post ->. now apply (strongly_sorted_dates pre s mid e post).
Qed.

(** In a log sorted as [read_rows] sorts it, no odometer reading being a
    NaN, no cycle ends on a date before the date it starts on. *)
Theorem sorted_cycles_forward (rows : list Row) (c : Cycle) :
  Forall no_nan rows ->
  In c (cycles (sort_rows rows)) ->
  date_ltb (end_date c) (start_date c) = false.
Proof.
  intros _ Hin.
  destruct (In_cycles_window _ c Hin) as (k & s & mid & e & Hw & ->).
  destruct (close_cycle_bounds s mid e) as (-> & _ & -> & _).
  destruct Hw as (pre & post & E & _).
  exact (sorted_dates _ (sort_rows_sorted rows) pre s mid e post E).
Qed.

Section ReadRowsFacts.

Variable strptime : str -> option Date.
Variable float_of_str : str -> option float.

Lemma parse_rows_app a b :
  parse_rows strptime float_of_str (a ++ b) =
    match parse_rows strptime float_of_str a with
    | inl e => inl e
    | inr ra =>
        match parse_rows strptime float_of_str b with
        | inl e => inl e
        | inr rb => inr (ra ++ rb)
        end
    end.
Proof.
  induction a as [|r a IH]; cbn [app parse_rows].
  - now destruct (parse_rows strptime float_of_str b).
  - destruct (read_row strptime float_of_str r) as [e|o]; [reflexivity|].
    rewrite IH.
    destruct (parse_rows strptime float_of_str a) as [e|ra]; [reflexivity|].
    destruct (parse_rows strptime float_of_str b) as [e|rb]; [reflexivity|].
    now destruct o.
Qed.

Lemma read_row_undated r :
  read_date strptime (r_date r) = None ->
  read_row strptime float_of_str r = inr None.
Proof. intros H. unfold read_row. now rewrite H. Qed.

(** A row whose date cannot be read, be it for a text that is no date, a line
    too short or a column that the file lacks, is skipped without an error,
    whatever its other cells hold. *)
Theorem read_rows_skips_undated (pre : list RawRow) (bad : RawRow)
    (post : list RawRow) :
  read_date strptime (r_date bad) = None ->
  read_rows strptime float_of_str (pre ++ bad :: post) =
  read_rows strptime float_of_str (pre ++ post).
Proof.
  intros H. unfold read_rows. rewrite !parse_rows_app. cbn [parse_rows].
  rewrite (read_row_undated bad H).
  destruct (parse_rows strptime float_of_str pre) as [e|ra]; [reflexivity|].
  now destruct (parse_rows strptime float_of_str post) as [e|rb].
Qed.

Lemma read_float_number c :
  (exists x, read_float float_of_str c = inr x) <->
  number_cell float_of_str c.
Proof.
  unfold number_cell. split.
  - intros [x H]. destruct c as [| |s]; try discriminate. cbn in H.
    destruct (float_of_str s) as [y|] eqn:E; [|discriminate]. eauto.
  - intros (s & x & -> & E). exists x. cbn. now rewrite E.
Qed.

Lemma read_float_value_error c :
  read_float float_of_str c = inl Read.ValueError ->
  exists s, c = StrCell s /\ float_of_str s = None.
Proof.
  destruct c as [| |s]; try discriminate. cbn.
  destruct (float_of_str s) eqn:E; [discriminate|]. eauto.
Qed.

(** A dated row is appended exactly if it is complete. *)
Lemma read_row_complete r d :
  read_date strptime (r_date r) = Some d ->
  (exists row, read_row strptime float_of_str r = inr (Some row)) <->
  complete float_of_str r.
Proof.
  intros Hd. unfold read_row, complete. rewrite Hd.
  rewrite <- !read_float_number. split.
  - intros [row H].
    destruct (read_float float_of_str (r_odometer_km r)) as [|odo];
      [discriminate|].
    destruct (read_float float_of_str (r_liters r)) as [|l]; [discriminate|].
    destruct (read_float float_of_str (r_price_per_liter_sek r)) as [|p];
      [discriminate|].
    destruct (r_full_fill r) as [| |s]; try discriminate.
    repeat split; eauto.
  - intros ([odo ->] & [l ->] & [p ->] & [s ->]). cbn. eauto.
Qed.

Lemma read_row_dated r d :
  read_date strptime (r_date r) = Some d ->
  read_row strptime float_of_str r <> inr None.
Proof.
  intros Hd. unfold read_row. rewrite Hd.
  destruct (read_float float_of_str (r_odometer_km r)); [discriminate|].
  destruct (read_float float_of_str (r_liters r)); [discriminate|].
  destruct (read_float float_of_str (r_price_per_liter_sek r));
    [discriminate|].
  destruct (read_flag (r_full_fill r)); discriminate.
Qed.

Lemma read_row_value_error r :
  read_row strptime float_of_str r = inl Read.ValueError ->
  read_date strptime (r_date r) <> None /\
  exists s, In (StrCell s) (number_cells r) /\ float_of_str s = None.
Proof.
  unfold read_row, number_cells.
  destruct (read_date strptime (r_date r)) as [d|]; [|discriminate].
  intros H. split; [discriminate|].
  destruct (read_float float_of_str (r_odometer_km r)) as [e|odo] eqn:E1.
  { injection H as ->. apply read_float_value_error in E1.
    destruct E1 as (s & -> & E). exists s. split; [now left | exact E]. }
  destruct (read_float float_of_str (r_liters r)) as [e|l] eqn:E2.
  { injection H as ->. apply read_float_value_error in E2.
    destruct E2 as (s & -> & E). exists s. split; [right; now left | exact E]. }
  destruct (read_float float_of_str (r_price_per_liter_sek r)) as [e|p] eqn:E3.
  { injection H as ->. apply read_float_value_error in E3.
    destruct E3 as (s & -> & E). exists s.
    split; [right; right; now left | exact E]. }
  destruct (r_full_fill r); discriminate.
Qed.

Lemma in_dated r raws :
  In r (dated strptime raws) <->
  In r raws /\ read_date strptime (r_date r) <> None.
Proof.
  unfold dated. rewrite filter_In.
  destruct (read_date strptime (r_date r)); cbn; intuition congruence.
Qed.

(** [parse_rows] returns exactly if every dated row is complete. *)
Lemma parse_rows_returns raws :
  (exists rows, parse_rows strptime float_of_str raws = inr rows) <->
  Forall (complete float_of_str) (dated strptime raws).
Proof.
  induction raws as [|r raws IH]; cbn [parse_rows].
  - split; [constructor | eauto].
  - unfold dated. cbn [filter]. fold (dated strptime raws).
    destruct (read_date strptime (r_date r)) as [d|] eqn:Hd; cbn [is_some].
    + pose proof (read_row_complete r d Hd) as Hc.
      pose proof (read_row_dated r d Hd) as Hn.
      destruct (read_row strptime float_of_str r) as [e|[row|]];
        [| |congruence].
      * split; [intros [? ?]; discriminate|]. intros H.
        apply Forall_inv in H. apply Hc in H. destruct H. discriminate.
      * destruct (parse_rows strptime float_of_str raws) as [e|rows].
        -- split; [intros [? ?]; discriminate|]. intros H.
           apply Forall_inv_tail in H. apply IH in H. destruct H. discriminate.
        -- split; [|eauto]. intros _. constructor; [apply Hc; eauto|].
           apply IH. eauto.
    + rewrite (read_row_undated r Hd).
      destruct (parse_rows strptime float_of_str raws) as [e|rows].
      * rewrite <- IH. split; intros [? ?]; discriminate.
      * rewrite <- IH. split; eauto.
Qed.

Lemma parse_rows_value_error raws :
  parse_rows strptime float_of_str raws = inl Read.ValueError ->
  exists r s,
    In r (dated strptime raws) /\
    In (StrCell s) (number_cells r) /\ float_of_str s = None.
Proof.
  induction raws as [|r raws IH]; cbn [parse_rows]; [discriminate|].
  destruct (read_row strptime float_of_str r) as [e|o] eqn:Hr.
  - intros H. injection H as ->. apply read_row_value_error in Hr.
    destruct Hr as (Hd & s & Hs & E). exists r, s.
    split; [|now split]. apply in_dated. split; [now left | exact Hd].
  - destruct (parse_rows strptime float_of_str raws) as [e|rows];
      [|discriminate].
    intros H. injection H as ->. destruct (IH eq_refl) as (r' & s & Hin & H).
    exists r', s. split; [|exact H].
    apply in_dated. apply in_dated in Hin. destruct Hin. split; [now right|].
    assumption.
Qed.

(** [read_rows] raises exactly when, in some row whose date can be read, a
    number or the full-fill cell is missing or a number cannot be read: one
    such row makes the whole file unreadable.  A [ValueError] comes from a
    number that cannot be read in a row whose date can. *)
Theorem read_rows_raises_iff (raws : list RawRow) :
  ((exists e, read_rows strptime float_of_str raws = inl e) <->
   exists r, In r (dated strptime raws) /\ ~ complete float_of_str r) /\
  (read_rows strptime float_of_str raws = inl Read.ValueError ->
   exists r s,
     In r (dated strptime raws) /\
     In (StrCell s) (number_cells r) /\ float_of_str s = None).
Proof.
  unfold read_rows. pose proof (parse_rows_returns raws) as Hret.
  pose proof (parse_rows_value_error raws) as Hval.
  destruct (parse_rows strptime float_of_str raws) as [e|rows].
  - split.
    + split; [intros _ | eauto].
      apply Exists_exists. apply neg_Forall_Exists_neg.
      * intros r.
        assert (Hd : forall c, {number_cell float_of_str c}
                               + {~ number_cell float_of_str c}).
        { intros [| |s]; try (right; intros (? & ? & ? & ?); discriminate).
          destruct (float_of_str s) as [x|] eqn:E.
          - left. now exists s, x.
          - right. intros (s' & x & [= <-] & E'). congruence. }
        unfold complete.
        destruct (Hd (r_odometer_km r)), (Hd (r_liters r)),
                 (Hd (r_price_per_liter_sek r));
          try (right; tauto).
        destruct (r_full_fill r) as [| |s];
          try (right; intros (_ & _ & _ & ? & ?); discriminate).
        left. eauto.
      * intros H. apply Hret in H. destruct H. discriminate.
    + intros H. injection H as ->. now apply Hval.
  - split; [|discriminate]. split; [intros [? ?]; discriminate|].
    intros (r & Hin & Hn). exfalso. apply Hn.
    assert (H : Forall (complete float_of_str) (dated strptime raws))
      by (apply Hret; eauto).
    rewrite Forall_forall in H. now apply H.
Qed.

Lemma parse_rows_length raws rows :
  parse_rows strptime float_of_str raws = inr rows ->
  length rows = length (dated strptime raws).
Proof.
  revert rows. induction raws as [|r raws IH]; intros rows H;
    cbn [parse_rows] in H.
  - now injection H as <-.
  - unfold dated. cbn [filter]. fold (dated strptime raws).
    destruct (read_date strptime (r_date r)) as [d|] eqn:Hd; cbn [is_some].
    + pose proof (read_row_dated r d Hd) as Hn.
      destruct (read_row strptime float_of_str r) as [e|[row|]];
        [discriminate| |congruence].
      destruct (parse_rows strptime float_of_str raws) as [e|rows'];
        [discriminate|].
      injection H as <-. cbn [length]. f_equal. now apply IH.
    + rewrite (read_row_undated r Hd) in H.
      destruct (parse_rows strptime float_of_str raws) as [e|rows'];
        [discriminate|].
      injection H as <-. now apply IH.
Qed.

(** What [read_rows] returns, no odometer reading being a NaN, has one row
    for each row of the file whose date can be read, is a rearrangement of
    the rows in file order, and never steps down in (date, odometer). *)
Theorem read_rows_sorted (raws : list RawRow) (rows : list Row) :
  read_rows strptime float_of_str raws = inr rows ->
  Forall no_nan rows ->
  length rows = length (dated strptime raws) /\
  Sorted (fun x y => key_ltb y x = false) rows /\
  exists parsed,
    parse_rows strptime float_of_str raws = inr parsed /\
    Permutation parsed rows.
Proof.
  unfold read_rows. intros H _.
  destruct (parse_rows strptime float_of_str raws) as [e|parsed] eqn:E;
    [discriminate|].
  injection H as <-. split; [|split].
  - rewrite <- (Permutation_length (sort_rows_perm parsed)).
    now apply parse_rows_length.
  - apply sort_rows_sorted.
  - exists parsed. split; [reflexivity | apply sort_rows_perm].
Qed.

End ReadRowsFacts.

(** ** The sample file *)

Lemma sorted_cycles_forward_witness :
  date_ltb (end_date cycle4) (start_date cycle4) = false.
Proof.
  apply (sorted_cycles_forward (rev log4) cycle4).
  - repeat constructor.
  - left. reflexivity.
Defined.

Lemma read_rows_skips_undated_witness :
  read_rows sample_date sample_float
            ([raw_second] ++ raw_undated :: [raw_first]) =
  read_rows sample_date sample_float ([raw_second] ++ [raw_first]).
Proof. apply read_rows_skips_undated. reflexivity. Defined.

Lemma read_rows_raises_iff_witness :
  exists e,
    read_rows sample_date sample_float [raw_first; raw_bad_number] = inl e.
Proof.
  apply (proj1 (read_rows_raises_iff sample_date sample_float _)).
  exists raw_bad_number. split; [right; now left|].
  intros (_ & (s & x & E & H) & _). injection E as <-. discriminate.
Defined.

(** A short line ahead of a number that cannot be read: the [TypeError] of
    the short line is the error raised. *)
Example read_rows_short_line :
  read_rows sample_date sample_float [raw_short; raw_bad_number] =
    inl Read.TypeError /\
  read_rows sample_date sample_float [raw_first; raw_bad_number] =
    inl Read.ValueError.
Proof. split; reflexivity. Qed.

Lemma read_rows_sorted_witness :
  Sorted (fun x y => key_ltb y x = false)
         [ mkRow (jan 1) 1000 40 19.5 true;
           mkRow (jan 2) 900 40 19.5 true ]%float.
Proof.
  refine (proj1 (proj2 (read_rows_sorted sample_date sample_float
                          [raw_second; raw_undated; raw_first] _ eq_refl _))).
  repeat constructor.
Defined.
